(** * xunitmerge: merging XUnit reports

    A shallow embedding of [xunitmerge/xmerge.py] and the properties of its
    merge engine, attribute aggregator and CDATA-aware serializer.

    Conventions of the embedding.
    - Python text is a [string] holding its UTF-8 bytes; comparing such
      strings byte by byte orders them as Python orders the code points, and
      [.encode('utf-8')] is the identity.
    - An [Element] is a value: tag, attribute dictionary, text, tail and the
      ordered children.  The trees handed to [merge_trees] are taken to be
      distinct objects, as [merge_xunit] builds them (one [etree.parse] per
      file), so that appending to the first root never changes a root that is
      still being iterated.
    - Exceptions are values of [exn]; code that prints or touches the
      module-level serializer of ElementTree runs in the monad [M] over
      [world].
    - The serializer is described by what it hands to [write]; the output
      either takes the data or raises. *)

From Stdlib Require Import Ascii.
From stdpp Require Import base option list strings gmap fin_maps pretty sorting.

Set Warnings "-register-all,-clear-no-such-hyp".

Local Open Scope string_scope.
Local Open Scope list_scope.
Local Open Scope nat_scope.

(** ** Document model *)

Inductive element : Type :=
  Element (tag : string) (attrib : gmap string string)
          (text : option string) (tail : option string)
          (children : list element).

Definition tag (e : element) : string :=
  match e with Element t _ _ _ _ => t end.
Definition attrib (e : element) : gmap string string :=
  match e with Element _ a _ _ _ => a end.
Definition text (e : element) : option string :=
  match e with Element _ _ x _ _ => x end.
Definition tail (e : element) : option string :=
  match e with Element _ _ _ x _ => x end.
Definition children (e : element) : list element :=
  match e with Element _ _ _ _ cs => cs end.

(** [elem.set(key, value)] *)
Definition set (key value : string) (e : element) : element :=
  match e with
  | Element t a x tl cs => Element t (<[key := value]> a) x tl cs
  end.

Definition set_children (cs : list element) (e : element) : element :=
  match e with
  | Element t a x tl _ => Element t a x tl cs
  end.

(** [ElementTree] wraps a root element. *)
Record ElementTree : Type := mkTree { getroot : element }.

(** [elem.iter(t)] for a tag name [t]: the element itself and all its
    descendants, in document order, restricted to those whose tag is [t].
    The module calls it with the names [skipped], [failure], [error] and
    [testcase] only; the wildcard [*] of ElementTree, which selects every
    element, is not a tag name and is not modelled. *)
Fixpoint iter (t : string) (e : element) {struct e} : list element :=
  match e with
  | Element tg _ _ _ cs =>
      (if decide (tg = t) then [e] else [])
      ++ (fix iter_list (l : list element) : list element :=
            match l with
            | [] => []
            | c :: l' => iter t c ++ iter_list l'
            end) cs
  end.

(** [elem.findall(t)] for a plain tag name: the direct children tagged [t]. *)
Definition findall (t : string) (e : element) : list element :=
  filter (λ c, tag c = t) (children e).

(** Proper descendants, as a relation that does not mention [iter]. *)
Inductive descendant : element → element → Prop :=
  | desc_child c e : c ∈ children e → descendant c e
  | desc_deep d c e : descendant d c → c ∈ children e → descendant d e.

(** ** Exceptions *)

Inductive exn : Type :=
  | KeyError (key : string)
  | ValueError (arg : string)
  | IndexError
  | IOError
  | ParseError.

Definition result (A : Type) : Type := exn + A.

Definition rbind {A B} (x : result A) (f : A → result B) : result B :=
  match x with
  | inl e => inl e
  | inr a => f a
  end.

(** ** Test-case predicates *)

Definition is_test_state (xml_element : element) (state : string) : bool :=
  match iter state xml_element with
  | _ :: _ => true
  | [] => false
  end.

Definition is_test_skipped (xml_element : element) : bool :=
  is_test_state xml_element "skipped".

Definition test_get_name (xml_element : element) : result string :=
  match attrib xml_element !! "name" with
  | Some n => inr n
  | None => inl (KeyError "name")
  end.

(** ** The Python runtime the module relies on

    [float], [float.__add__], [float(s)] and [six.text_type(x)] are not code
    of this repository.  They are taken as an interface; the one law recorded
    is that the literal ["0"] reads as [0.0]. *)

Class PyFloat : Type := {
  float : Type;
  float_zero : float;
  float_add : float → float → float;
  float_of_str : string → option float;
  text_type_float : float → string;
  float_of_str_0 : float_of_str "0" = Some float_zero
}.

(** [six.text_type(n)] for an integer: its base-10 numeral. *)
Definition text_type_int (n : nat) : string := pretty n.

(** ** Attribute aggregator *)

Section aggregator.
Context `{PyFloat}.

Record suite_state : Type := mkState {
  tests : nat;
  skipped : nat;
  failures : nat;
  errors : nat;
  time : float
}.

Definition suite_state_init : suite_state :=
  {| tests := 0; skipped := 0; failures := 0; errors := 0;
     time := float_zero |}.

(** [float(test.attrib.get('time', '0'))] *)
Definition test_time (test : element) : result float :=
  let s := default "0" (attrib test !! "time") in
  match float_of_str s with
  | Some x => inr x
  | None => inl (ValueError s)
  end.

(** One turn of the loop over [test_suite.iter('testcase')]. *)
Definition update_state (st : suite_state) (test : element)
  : result suite_state :=
  rbind (test_time test) (λ t,
    let st := {| tests := tests st; skipped := skipped st;
                 failures := failures st; errors := errors st;
                 time := float_add (time st) t |} in
    inr (if is_test_state test "skipped" then
           {| tests := tests st; skipped := S (skipped st);
              failures := failures st; errors := errors st;
              time := time st |}
         else
           let st := {| tests := S (tests st); skipped := skipped st;
                        failures := failures st; errors := errors st;
                        time := time st |} in
           if is_test_state test "failure" then
             {| tests := tests st; skipped := skipped st;
                failures := S (failures st); errors := errors st;
                time := time st |}
           else if is_test_state test "error" then
             {| tests := tests st; skipped := skipped st;
                failures := failures st; errors := S (errors st);
                time := time st |}
           else st)).

Fixpoint scan_cases (cases : list element) (st : suite_state)
  : result suite_state :=
  match cases with
  | [] => inr st
  | test :: rest => rbind (update_state st test) (scan_cases rest)
  end.

(** The loop [for key in suite_state: test_suite.set(key, ...)]. *)
Definition write_state (st : suite_state) (test_suite : element) : element :=
  set "time" (text_type_float (time st))
    (set "errors" (text_type_int (errors st))
      (set "failures" (text_type_int (failures st))
        (set "skipped" (text_type_int (skipped st))
          (set "tests" (text_type_int (tests st)) test_suite)))).

Definition test_suite_update_attribs (test_suite : element)
  : result element :=
  rbind (scan_cases (iter "testcase" test_suite) suite_state_init)
        (λ st, inr (write_state st test_suite)).

End aggregator.

(** ** Process state, output and the monad of effectful code *)

(** What [etree._serialize_xml] and [etree._serialize['xml']] may hold: the
    library's own function, or the closure made by [patch_etree_cname], which
    remembers the function it found. *)
Inductive serializer : Type :=
  | StdSerializeXml
  | CnameSerializeXml (original_serialize : serializer).

Record world : Type := mkWorld {
  stdout : list string;              (* lines printed so far *)
  etree_serialize_xml : serializer;  (* etree._serialize_xml *)
  etree_serialize : serializer;      (* etree._serialize['xml'] *)
  written : list string              (* chunks accepted by the output *)
}.

Definition M (A : Type) : Type := world → result A * world.

Definition ret {A} (a : A) : M A := λ w, (inr a, w).
Definition raise {A} (e : exn) : M A := λ w, (inl e, w).
Definition bind {A B} (f : A → M B) (m : M A) : M B :=
  λ w, match m w with
       | (inr a, w') => f a w'
       | (inl e, w') => (inl e, w')
       end.
Definition lift {A} (r : result A) : M A := λ w, (r, w).

#[global] Instance M_ret : MRet M := @ret.
#[global] Instance M_bind : MBind M := @bind.

Definition get_world : M world := λ w, (inr w, w).

Definition print (line : string) : M unit :=
  λ w, (inr tt, {| stdout := stdout w ++ [line];
                   etree_serialize_xml := etree_serialize_xml w;
                   etree_serialize := etree_serialize w;
                   written := written w |}).

Fixpoint foldM {A S} (f : S → A → M S) (l : list A) (s : S) : M S :=
  match l with
  | [] => ret s
  | a :: l' => s' ← f s a; foldM f l' s'
  end.

Definition result_ret {A} (a : A) : result A := inr a.
#[global] Instance result_mret : MRet result := @result_ret.
#[global] Instance result_mbind : MBind result := λ A B f x, rbind x f.

(** ** Python dictionaries that are iterated

    [skipped_tests] is iterated at the end of the merge, so it is kept as the
    sequence of its items in insertion order, without repeated keys (the
    order in which Python 3.7 and later iterate a dictionary). *)

Definition dict : Type := list (string * element).

(** [key in d] *)
Definition dict_mem (key : string) (d : dict) : bool :=
  bool_decide (key ∈ d.*1).

(** [d[key]] *)
Fixpoint dict_get (key : string) (d : dict) : result element :=
  match d with
  | [] => inl (KeyError key)
  | (k, v) :: d' => if decide (k = key) then inr v else dict_get key d'
  end.

(** [d[key] = value]: a present key keeps its place, a new one goes last. *)
Fixpoint dict_set (key : string) (value : element) (d : dict) : dict :=
  match d with
  | [] => [(key, value)]
  | (k, v) :: d' =>
      if decide (k = key) then (k, value) :: d'
      else (k, v) :: dict_set key value d'
  end.

(** [del d[key]] *)
Definition dict_del (key : string) (d : dict) : result dict :=
  if dict_mem key d then inr (filter (λ kv, kv.1 ≠ key) d)
  else inl (KeyError key).

(** [key in l] for a list of names *)
Definition list_mem (key : string) (l : list string) : bool :=
  bool_decide (key ∈ l).

(** ** Merge engine *)

(** The three things the merge loops update: the children of [first_root],
    [skipped_tests] and [completed_tests]. *)
Record merge_state : Type := mkMerge {
  first_children : list element;
  skipped_tests : dict;
  completed_tests : list string
}.

(** First loop of [merge_trees], one child of [first_root] at a time.  The
    source walks the snapshot [first_root.findall("testcase")] and calls
    [first_root.remove(test)] on the child it is visiting; children that are
    not tagged [testcase] are not visited and stay.  Here the children are
    passed once, left to right, and [first_children] collects those that
    stay, which is the child list the source ends the loop with. *)
Definition partition_child (st : merge_state) (test : element)
  : result merge_state :=
  if decide (tag test = "testcase") then
    test_name ← test_get_name test;
    if is_test_skipped test then
      mret {| first_children := first_children st;
              skipped_tests :=
                if dict_mem test_name (skipped_tests st)
                then skipped_tests st
                else dict_set test_name test (skipped_tests st);
              completed_tests := completed_tests st |}
    else
      mret {| first_children := first_children st ++ [test];
              skipped_tests := skipped_tests st;
              completed_tests :=
                if list_mem test_name (completed_tests st)
                then completed_tests st
                else completed_tests st ++ [test_name] |}
  else
    mret {| first_children := first_children st ++ [test];
            skipped_tests := skipped_tests st;
            completed_tests := completed_tests st |}.

Fixpoint partition_first (cs : list element) (st : merge_state)
  : result merge_state :=
  match cs with
  | [] => mret st
  | test :: cs' => st' ← partition_child st test; partition_first cs' st'
  end.

Definition duplication_warning (test_name : string) : string :=
  "WARNING: Duplication of completed '" +:+ test_name +:+ "' test case".

(** Body of the loop [for test in root] over a later tree. *)
Definition merge_child (st : merge_state) (test : element) : M merge_state :=
  test_name ← lift (test_get_name test);
  if is_test_skipped test then
    if negb (list_mem test_name (completed_tests st))
       && negb (dict_mem test_name (skipped_tests st))
    then mret {| first_children := first_children st;
                 skipped_tests := dict_set test_name test (skipped_tests st);
                 completed_tests := completed_tests st |}
    else mret st
  else
    skipped' ←
      (if dict_mem test_name (skipped_tests st) then
         d ← lift (dict_del test_name (skipped_tests st));
         (if dict_mem test_name d then print "not removed?" else mret tt);;
         mret d
       else mret (skipped_tests st));
    completed' ←
      (if list_mem test_name (completed_tests st) then
         print (duplication_warning test_name);;
         mret (completed_tests st)
       else mret (completed_tests st ++ [test_name]));
    mret {| first_children := first_children st ++ [test];
            skipped_tests := skipped';
            completed_tests := completed' |}.

(** The loop [for tree in trees[1:]]. *)
Definition merge_tree (st : merge_state) (tree : ElementTree) : M merge_state :=
  foldM merge_child (children (getroot tree)) st.

(** Last loop: the skipped tests that were never completed go back in. *)
Fixpoint add_skipped (keys : list string) (st : merge_state)
  : result (list element) :=
  match keys with
  | [] => mret (first_children st)
  | test_name :: keys' =>
      if list_mem test_name (completed_tests st) then add_skipped keys' st
      else
        test ← dict_get test_name (skipped_tests st);
        rest ← add_skipped keys'
                 {| first_children := first_children st ++ [test];
                    skipped_tests := skipped_tests st;
                    completed_tests := completed_tests st |};
        mret rest
  end.

Section merge.
Context `{PyFloat}.

Definition merge_trees (trees : list ElementTree) : M ElementTree :=
  match trees with
  | [] => raise IndexError
  | first_tree :: others =>
      let first_root := getroot first_tree in
      if decide (length trees ≤ 1) then mret first_tree
      else
        st ← lift (partition_first (children first_root)
                     {| first_children := [];
                        skipped_tests := [];
                        completed_tests := [] |});
        st ← foldM merge_tree others st;
        cs ← lift (add_skipped (skipped_tests st).*1 st);
        root ← lift (test_suite_update_attribs
                       (set_children cs first_root));
        mret (mkTree root)
  end.

End merge.

(** ** CDATA-aware serializer *)

Definition CNAME_TAGS : list string :=
  ["system-out"; "skipped"; "error"; "failure"].

Definition dquote : ascii := "034"%char.
Definition squote : ascii := "039"%char.
Definition newline : ascii := "010"%char.
Definition creturn : ascii := "013"%char.
Definition tab : ascii := "009"%char.

(** [s.replace(c, by)] for a one-character pattern *)
Fixpoint replace (c : ascii) (by_ : string) (s : string) : string :=
  match s with
  | EmptyString => EmptyString
  | String a s' =>
      if decide (a = c) then by_ +:+ replace c by_ s'
      else String a (replace c by_ s')
  end.

(** [c in s] *)
Fixpoint contains (c : ascii) (s : string) : bool :=
  match s with
  | EmptyString => false
  | String a s' => if decide (a = c) then true else contains c s'
  end.

(** [xml.sax.saxutils.escape(data, entities)] with the entities that
    [quoteattr] passes. *)
Definition escape (data : string) : string :=
  let data := replace "&" "&amp;" data in
  let data := replace ">" "&gt;" data in
  let data := replace "<" "&lt;" data in
  let data := replace newline "&#10;" data in
  let data := replace creturn "&#13;" data in
  let data := replace tab "&#9;" data in
  data.

(** [xml.sax.saxutils.quoteattr(data)] *)
Definition quoteattr (data : string) : string :=
  let data := escape data in
  if contains dquote data then
    if contains squote data then
      String dquote (replace dquote "&quot;" data +:+ String dquote "")
    else String squote (data +:+ String squote "")
  else String dquote (data +:+ String dquote "").

(** [sep.join(l)] *)
Fixpoint join (sep : string) (l : list string) : string :=
  match l with
  | [] => ""
  | [x] => x
  | x :: l' => x +:+ sep +:+ join sep l'
  end.

(** ['{}'.format(x)] for [x] a string or [None] *)
Definition format_text (x : option string) : string :=
  match x with
  | Some s => s
  | None => "None"
  end.

(** The order of [sorted(elem.attrib.items())].  The keys of a dictionary are
    distinct, so the order of the tuples is the order of their keys. *)
Definition item_le (x y : string * string) : Prop := String.le x.1 y.1.

#[global] Instance item_le_dec : RelDecision item_le.
Proof. intros x y. unfold item_le. apply _. Defined.

Definition sorted_items (a : gmap string string) : list (string * string) :=
  merge_sort item_le (map_to_list a).

Definition format_attr (kv : string * string) : string :=
  kv.1 +:+ "=" +:+ quoteattr kv.2.

(** The branch of the patched [_serialize_xml] taken for the tags of
    [CNAME_TAGS]: what it hands to [write]. *)
Definition cname_element (elem : element) : string :=
  let attrs := join " " (format_attr <$> sorted_items (attrib elem)) in
  let attrs := if decide (attrs = "") then "" else " " +:+ attrs in
  let text := "<![CDATA[" +:+ format_text (text elem) +:+ "]]>" in
  "<" +:+ tag elem +:+ attrs +:+ ">" +:+ text +:+ "</" +:+ tag elem +:+ ">".

(** ElementTree's own [_serialize_xml] is not code of this repository.  It
    writes an element from the element itself and from what the calls it
    makes for the children write; those calls go through the module-level
    name [_serialize_xml], whatever it holds at that moment. *)
Class StdSerializer : Type := {
  std_serialize_xml : element → list string → string
}.

Section serializer.
Context `{StdSerializer}.

(** Running the function held in [s] on [elem], when the module-level
    [_serialize_xml] holds [global]. *)
Fixpoint run_serializer (global : serializer) (elem : element) {struct elem}
  : serializer → string :=
  match elem with
  | Element tg _ _ _ cs =>
      let kids :=
        (fix run_list (l : list element) : list string :=
           match l with
           | [] => []
           | c :: l' => run_serializer global c global :: run_list l'
           end) cs in
      fix call (s : serializer) : string :=
        match s with
        | CnameSerializeXml original_serialize =>
            if bool_decide (tg ∈ CNAME_TAGS) then cname_element elem
            else call original_serialize
        | StdSerializeXml => std_serialize_xml elem kids
        end
  end.

End serializer.

Definition set_serializers (s : serializer) (w : world) : world :=
  {| stdout := stdout w;
     etree_serialize_xml := s;
     etree_serialize := s;
     written := written w |}.

(** [with patch_etree_cname(etree): body].  The generator stores the current
    [etree._serialize_xml], installs the closure in both places and yields; a
    body that ends normally resumes it, and it stores the saved function
    back.  A body that raises makes [contextmanager] throw the exception into
    the generator at the [yield]: nothing catches it there, the generator
    ends with it and the line after the [yield] does not run. *)
Definition patch_etree_cname {A} (body : M A) : M A := λ w,
  let original_serialize := etree_serialize_xml w in
  match body (set_serializers (CnameSerializeXml original_serialize) w) with
  | (inr a, w') => (inr a, set_serializers original_serialize w')
  | (inl e, w') => (inl e, w')
  end.

(** ** Orchestrator *)

(** An input file is modelled by what [etree.parse] makes of it. *)
Definition source : Type := result ElementTree.
Definition parse (f : source) : M ElementTree := lift f.

(** The output either accepts what is written to it or raises. *)
Record sink : Type := mkSink { writable : bool }.

Definition sink_write (output : sink) (data : string) : M unit := λ w,
  if writable output then
    (inr tt, {| stdout := stdout w;
                etree_serialize_xml := etree_serialize_xml w;
                etree_serialize := etree_serialize w;
                written := written w ++ [data] |})
  else (inl IOError, w).

Definition xml_declaration : string :=
  "<?xml version='1.0' encoding='utf-8'?>" +:+ String newline "".

Section orchestrator.
Context `{PyFloat} `{StdSerializer}.

(** [tree.write(output, encoding='utf-8', xml_declaration=True)]: the
    declaration, then the root through [etree._serialize['xml']].  The
    output is taken to accept whatever it is handed.  For an element of the
    four tags the closure hands [write] encoded bytes, which the text writer
    of Python 3 refuses with [TypeError]; what is proved below about a write
    that returns is therefore stated for trees without such elements, where
    only the library's function writes. *)
Definition tree_write (tree : ElementTree) (output : sink) : M unit :=
  sink_write output xml_declaration;;
  w ← get_world;
  sink_write output
    (run_serializer (etree_serialize_xml w) (getroot tree)
       (etree_serialize w)).

Fixpoint parse_all (files : list source) (trees : list ElementTree)
  : M (list ElementTree) :=
  match files with
  | [] => mret trees
  | f :: files' => t ← parse f; parse_all files' (trees ++ [t])
  end.

(** The callback may change the merged tree in place and may return a
    tree: it is given the merged tree and yields the tree as it left it,
    together with what it returned. *)
Definition merge_xunit (files : list source) (output : sink)
    (callback : option (ElementTree → M (ElementTree * option ElementTree)))
  : M unit :=
  trees ← parse_all files [];
  merged ← merge_trees trees;
  merged ← match callback with
           | Some cb =>
               '(merged, result) ← cb merged;
               mret (default merged result)
           | None => mret merged
           end;
  patch_etree_cname (tree_write merged output).

End orchestrator.

(** ** Instances for running the model

    [dec] reads plain decimal numerals ([0], [12], [0.001]) as exact decimal
    fractions and rejects every other string; on these numerals it agrees
    with Python up to rounding.  [plain_xml] writes an element the way
    ElementTree does for documents without namespaces, with the attributes
    in key order (ElementTree sorted them up to Python 3.7 and keeps their
    insertion order since).  Both only serve to run examples: the theorems
    are stated over the interfaces. *)

Record dec : Type := mkDec { mant : N; scale : nat }.

Definition dec_add (a b : dec) : dec :=
  let k := scale a `max` scale b in
  mkDec (mant a * 10 ^ N.of_nat (k - scale a)
         + mant b * 10 ^ N.of_nat (k - scale b))%N k.

Fixpoint read_digits (s : string) (acc : N) : option N :=
  match s with
  | EmptyString => Some acc
  | String a s' =>
      d ← Ascii.is_nat a; read_digits s' (10 * acc + N.of_nat d)%N
  end.

Fixpoint split_at_dot (s : string) : string * option string :=
  match s with
  | EmptyString => ("", None)
  | String a s' =>
      if decide (a = "."%char) then ("", Some s')
      else let '(i, f) := split_at_dot s' in (String a i, f)
  end.

Definition dec_of_str (s : string) : option dec :=
  let '(i, f) := split_at_dot s in
  if decide (i = "") then None
  else match f with
       | None => m ← read_digits i 0%N; Some (mkDec m 0)
       | Some f =>
           if decide (f = "") then None
           else m ← read_digits (i +:+ f) 0%N; Some (mkDec m (String.length f))
       end.

Fixpoint dec_normal (k : nat) (m : N) : dec :=
  match k with
  | 0 => mkDec m 0
  | S k' => if decide (m `mod` 10 = 0)%N then dec_normal k' (m `div` 10)%N
            else mkDec m k
  end.

Fixpoint zeros (n : nat) : string :=
  match n with
  | 0 => ""
  | S n' => String "0" (zeros n')
  end.

Definition text_of_dec (d : dec) : string :=
  let d := dec_normal (scale d) (mant d) in
  let p := (10 ^ N.of_nat (scale d))%N in
  let frac := pretty (mant d `mod` p)%N in
  pretty (mant d `div` p)%N +:+ "." +:+
  (if decide (scale d = 0) then "0"
   else zeros (scale d - String.length frac) +:+ frac).

#[global] Instance dec_float : PyFloat := {|
  float := dec;
  float_zero := mkDec 0 0;
  float_add := dec_add;
  float_of_str := dec_of_str;
  text_type_float := text_of_dec;
  float_of_str_0 := eq_refl
|}.

Definition escape_cdata (s : string) : string :=
  replace ">" "&gt;" (replace "<" "&lt;" (replace "&" "&amp;" s)).

Definition escape_attrib (s : string) : string :=
  replace newline "&#10;"
    (replace dquote "&quot;"
       (replace ">" "&gt;" (replace "<" "&lt;" (replace "&" "&amp;" s)))).

Definition plain_attr (kv : string * string) : string :=
  " " +:+ kv.1 +:+ "=" +:+ String dquote (escape_attrib kv.2)
  +:+ String dquote "".

Fixpoint concat_strings (l : list string) : string :=
  match l with
  | [] => ""
  | x :: l' => x +:+ concat_strings l'
  end.

Definition plain_serialize_xml (elem : element) (kids : list string) : string :=
  let txt := default "" (text elem) in
  "<" +:+ tag elem +:+ concat_strings (plain_attr <$> sorted_items (attrib elem))
  +:+ (if decide (txt = "" ∧ kids = []) then " />"
       else ">" +:+ escape_cdata txt +:+ concat_strings kids
            +:+ "</" +:+ tag elem +:+ ">")
  +:+ escape_cdata (default "" (tail elem)).

#[global] Instance plain_xml : StdSerializer := {|
  std_serialize_xml := plain_serialize_xml
|}.

(** A fresh process: nothing printed or written, ElementTree untouched. *)
Definition world0 : world :=
  {| stdout := []; etree_serialize_xml := StdSerializeXml;
     etree_serialize := StdSerializeXml; written := [] |}.

(** Test cases of the examples. *)
Definition marker (t : string) (body : string) : element :=
  Element t ∅ (Some body) None [].

Definition testcase (name time_ : string) (kids : list element) : element :=
  Element "testcase"
    (<["classname" := "some.class.Foo"]> (<["name" := name]> (<["time" := time_]> ∅)))
    None None kids.

Definition suite (cs : list element) : ElementTree :=
  mkTree (Element "testsuite" (<["name" := "nosetests"]> ∅) None None cs).

Definition passed (name : string) : element := testcase name "0.001" [].
Definition skipped_case (name : string) : element :=
  testcase name "0.002" [marker "skipped" "Skipped"].

(** The end-to-end scenario: P passes and Q is skipped in the first report,
    Q passes and R is skipped in the second. *)
Definition suite1 : ElementTree := suite [passed "P"; skipped_case "Q"].
Definition suite2 : ElementTree := suite [passed "Q"; skipped_case "R"].

(** What a normal run returns, and a placeholder when it raises. *)
Definition returned {A} (dflt : A) (r : result A * world) : A :=
  match r with
  | (inr a, _) => a
  | (inl _, _) => dflt
  end.

Definition merged12 : ElementTree :=
  returned suite1 (merge_trees [suite1; suite2] world0).

Definition merged21 : ElementTree :=
  returned suite2 (merge_trees [suite2; suite1] world0).

(** ** Vocabulary of the properties *)

Definition case_name (c : element) : option string := attrib c !! "name".

(** [named X s c]: [c] carries the name [X] and is skipped ([s = true]) or
    completed ([s = false]). *)
Definition named (X : string) (s : bool) (c : element) : Prop :=
  case_name c = Some X ∧ is_test_skipped c = s.

#[global] Instance named_dec X s c : Decision (named X s c).
Proof. unfold named. apply _. Defined.

Definition count_named (X : string) (s : bool) (l : list element) : nat :=
  length (filter (named X s) l).

(** The children of input number [i] that the merge handles as test cases:
    those tagged [testcase] in the first tree, all of them in a later one. *)
Definition input_cases (i : nat) (t : ElementTree) : list element :=
  match i with
  | 0 => findall "testcase" (getroot t)
  | S _ => children (getroot t)
  end.

(** The children of the first root that the merge does not look at. *)
Definition untouched (t : ElementTree) : list element :=
  filter (λ c, tag c ≠ "testcase") (children (getroot t)).

Definition later_cases (others : list ElementTree) : list element :=
  others ≫= (λ t, children (getroot t)).

Definition count_lines (line : string) (out : list string) : nat :=
  length (filter (λ l, l = line) out).

(** What the two tables know once the cases [seen] have been handled. *)
Definition tables_inv (seen : list element) (st : merge_state) : Prop :=
  (∀ X, X ∈ completed_tests st ↔ ∃ c, c ∈ seen ∧ named X false c) ∧
  NoDup (skipped_tests st).*1 ∧
  (∀ k e, (k, e) ∈ skipped_tests st → e ∈ seen ∧ named k true e) ∧
  (∀ X c, c ∈ seen → named X true c → X ∉ completed_tests st →
          X ∈ (skipped_tests st).*1).

(** Where the entries of the skip table come from: their elements are
    cases seen so far, in the order seen, each the first skipped case of its
    name. *)
Definition skips_inv (seen : list element) (st : merge_state) : Prop :=
  (skipped_tests st).*2 `sublist_of` seen ∧
  ∀ k e, (k, e) ∈ skipped_tests st →
         ∃ l1 l2, seen = l1 ++ e :: l2 ∧ ∀ c, c ∈ l1 → ¬ named k true c.

(** During the first loop no entry leaves the table: every skipped case
    seen so far has its name in it. *)
Definition skips_kept (seen : list element) (st : merge_state) : Prop :=
  ∀ X c, c ∈ seen → named X true c → X ∈ (skipped_tests st).*1.

(** An element without any element of the four CDATA tags, itself
    included. *)
Definition cdata_free (e : element) : Prop :=
  ∀ t, t ∈ CNAME_TAGS → iter t e = [].


(** * Properties *)

(** ** The document model *)

Lemma element_ind' (P : element → Prop) :
  (∀ t a x tl cs, Forall P cs → P (Element t a x tl cs)) →
  ∀ e, P e.
Proof.
  intros IH. fix rec 1. intros [t a x tl cs]. apply IH.
  induction cs as [|c cs IHcs]; constructor; [apply rec | exact IHcs].
Qed.

Lemma iter_unfold t e :
  iter t e =
    (if decide (tag e = t) then [e] else []) ++ children e ≫= iter t.
Proof.
  destruct e as [tg a x tl cs]; simpl. f_equal.
Qed.

Lemma iter_tag t e x : x ∈ iter t e → tag x = t.
Proof.
  revert x. induction e as [tg a tx tl cs IH] using element_ind'. intros x.
  rewrite iter_unfold; simpl. rewrite elem_of_app, list_elem_of_bind.
  intros [Hx | (c & Hx & Hc)].
  - case_decide; [|by apply elem_of_nil in Hx].
    apply list_elem_of_singleton in Hx. by subst.
  - rewrite Forall_forall in IH. by apply (IH c).
Qed.

Lemma iter_descendant t e x :
  x ∈ iter t e → x = e ∨ descendant x e.
Proof.
  revert x. induction e as [tg a tx tl cs IH] using element_ind'. intros x.
  rewrite iter_unfold; simpl. rewrite elem_of_app, list_elem_of_bind.
  intros [Hx | (c & Hx & Hc)].
  - case_decide; [|by apply elem_of_nil in Hx].
    apply list_elem_of_singleton in Hx. by left.
  - right. rewrite Forall_forall in IH.
    destruct (IH c Hc x Hx) as [-> | Hd].
    + by apply desc_child.
    + by eapply desc_deep.
Qed.

Lemma iter_self e : e ∈ iter (tag e) e.
Proof. rewrite iter_unfold. rewrite decide_True by done. set_solver. Qed.

Lemma descendant_iter t d e :
  descendant d e → tag d = t → d ∈ iter t e.
Proof.
  intros Hd <-. induction Hd as [c e Hc | d c e Hd IH Hc];
    rewrite iter_unfold, elem_of_app, list_elem_of_bind; right.
  - exists c. split; [apply iter_self | done].
  - by exists c.
Qed.

Lemma iter_child t k e c :
  k ∈ children e → c ∈ iter t k → c ∈ iter t e.
Proof.
  intros Hk Hc. rewrite (iter_unfold t e), elem_of_app, list_elem_of_bind.
  right. by exists k.
Qed.


Lemma is_test_state_true e s :
  is_test_state e s = true ↔ ∃ x, x ∈ iter s e.
Proof.
  unfold is_test_state. destruct (iter s e) as [|x l]; split.
  - done.
  - intros [x Hx]. by apply elem_of_nil in Hx.
  - intros _. exists x. left.
  - done.
Qed.

(** A marker is found in the element itself or below it. *)
Lemma is_test_state_spec e s :
  is_test_state e s = true ↔
  tag e = s ∨ ∃ d, descendant d e ∧ tag d = s.
Proof.
  rewrite is_test_state_true. split.
  - intros [x Hx]. pose proof (iter_tag _ _ _ Hx) as Ht.
    destruct (iter_descendant _ _ _ Hx) as [-> | Hd]; [by left|].
    right. by exists x.
  - intros [<- | (d & Hd & Ht)].
    + exists e. apply iter_self.
    + exists d. by apply descendant_iter.
Qed.


(** ** Attribute aggregator *)

Section aggregator_facts.
Context `{PyFloat}.

Lemma test_time_missing test :
  attrib test !! "time" = None → test_time test = inr float_zero.
Proof.
  intros Ht. unfold test_time. rewrite Ht. simpl. by rewrite float_of_str_0.
Qed.

Lemma test_time_unparsable test v :
  attrib test !! "time" = Some v → float_of_str v = None →
  test_time test = inl (ValueError v).
Proof. intros Ht Hv. unfold test_time. rewrite Ht. simpl. by rewrite Hv. Qed.

Lemma update_state_inr st test st' :
  update_state st test = inr st' →
  ∃ t, test_time test = inr t ∧
       time st' = float_add (time st) t ∧
       if is_test_state test "skipped" then
         skipped st' = S (skipped st) ∧ tests st' = tests st ∧
         failures st' = failures st ∧ errors st' = errors st
       else
         skipped st' = skipped st ∧ tests st' = S (tests st) ∧
         if is_test_state test "failure" then
           failures st' = S (failures st) ∧ errors st' = errors st
         else if is_test_state test "error" then
           failures st' = failures st ∧ errors st' = S (errors st)
         else failures st' = failures st ∧ errors st' = errors st.
Proof.
  unfold update_state. destruct (test_time test) as [e|t]; simpl; [done|].
  intros [= <-]. exists t. split; [done|].
  destruct (is_test_state test "skipped"); simpl; [done|].
  destruct (is_test_state test "failure"); simpl; [done|].
  by destruct (is_test_state test "error").
Qed.

Lemma update_state_inl st test e :
  test_time test = inl e → update_state st test = inl e.
Proof. intros Ht. unfold update_state. by rewrite Ht. Qed.

Lemma scan_cases_inr cases st st' :
  scan_cases cases st = inr st' →
  tests st' + skipped st' = tests st + skipped st + length cases ∧
  (failures st + errors st ≤ tests st →
   failures st' + errors st' ≤ tests st') ∧
  ∃ times, Forall2 (λ c x, test_time c = inr x) cases times ∧
           time st' = foldl float_add (time st) times.
Proof.
  revert st. induction cases as [|test cases IH]; intros st; simpl.
  - intros [= <-]. split; [lia|]. split; [done|]. exists []. by split.
  - destruct (update_state st test) as [e|st1] eqn:Hst1; simpl; [done|].
    intros Hscan. destruct (IH _ Hscan) as (Hcount & Hle & times & Ht & Hsum).
    destruct (update_state_inr _ _ _ Hst1) as (t & Htime & Hadd & Hcase).
    assert (tests st1 + skipped st1 = S (tests st + skipped st) ∧
            (failures st + errors st ≤ tests st →
             failures st1 + errors st1 ≤ tests st1)) as [Hc1 Hl1].
    { destruct (is_test_state test "skipped"); [lia|].
      destruct (is_test_state test "failure"); [lia|].
      destruct (is_test_state test "error"); lia. }
    split; [lia|]. split; [auto|].
    exists (t :: times). split; [by constructor|].
    simpl. by rewrite <- Hadd.
Qed.

Lemma scan_cases_inl cases st test e :
  test ∈ cases → test_time test = inl e →
  ∃ e', scan_cases cases st = inl e'.
Proof.
  intros Hin Ht. revert st.
  induction cases as [|c cases IH]; intros st; [by apply elem_of_nil in Hin|].
  simpl. destruct (update_state st c) as [e1|st1] eqn:Hc; simpl; [by eexists|].
  apply elem_of_cons in Hin as [<- | Hin]; [|by apply IH].
  by rewrite (update_state_inl _ _ _ Ht) in Hc.
Qed.

Lemma write_state_shape st test_suite :
  tag (write_state st test_suite) = tag test_suite ∧
  text (write_state st test_suite) = text test_suite ∧
  tail (write_state st test_suite) = tail test_suite ∧
  children (write_state st test_suite) = children test_suite ∧
  attrib (write_state st test_suite) =
    <["time" := text_type_float (time st)]>
      (<["errors" := text_type_int (errors st)]>
        (<["failures" := text_type_int (failures st)]>
          (<["skipped" := text_type_int (skipped st)]>
            (<["tests" := text_type_int (tests st)]> (attrib test_suite))))).
Proof. by destruct test_suite. Qed.

Lemma update_attribs_inr test_suite out :
  test_suite_update_attribs test_suite = inr out →
  ∃ st, scan_cases (iter "testcase" test_suite) suite_state_init = inr st ∧
        out = write_state st test_suite.
Proof.
  unfold test_suite_update_attribs.
  destruct (scan_cases _ _) as [e|st]; simpl; [done|].
  intros [= <-]. by exists st.
Qed.

Lemma iter_same_shape t e e' :
  tag e' = tag e → children e' = children e →
  length (iter t e') = length (iter t e) ∧
  (tag e ≠ t → iter t e' = iter t e).
Proof.
  intros Ht Hc. rewrite !iter_unfold, Ht, Hc.
  case_decide; [|done]. split; [done|]. congruence.
Qed.

End aggregator_facts.

(** ** Dictionaries *)

Lemma dict_mem_true k d : dict_mem k d = true ↔ k ∈ d.*1.
Proof. unfold dict_mem. apply bool_decide_eq_true. Qed.

Lemma dict_mem_false k d : dict_mem k d = false ↔ k ∉ d.*1.
Proof. unfold dict_mem. apply bool_decide_eq_false. Qed.

Lemma list_mem_true k l : list_mem k l = true ↔ k ∈ l.
Proof. unfold list_mem. apply bool_decide_eq_true. Qed.

Lemma list_mem_false k l : list_mem k l = false ↔ k ∉ l.
Proof. unfold list_mem. apply bool_decide_eq_false. Qed.

Lemma dict_set_fresh k v d : k ∉ d.*1 → dict_set k v d = d ++ [(k, v)].
Proof.
  induction d as [|[k' v'] d IH]; simpl; [done|].
  rewrite not_elem_of_cons. intros [Hne Hd].
  rewrite decide_False by done. by rewrite IH.
Qed.

Lemma dict_drop_keys k (d : dict) :
  (filter (λ kv, kv.1 ≠ k) d).*1 = filter (λ x, x ≠ k) d.*1.
Proof.
  induction d as [|[k' v'] d IH]; [done|].
  rewrite fmap_cons; simpl. destruct (decide (k' = k)) as [->|Hne].
  - rewrite (filter_cons_False (λ x, x ≠ k)) by auto.
    rewrite (filter_cons_False (λ kv : string * element, kv.1 ≠ k))
      by (simpl; auto).
    done.
  - rewrite (filter_cons_True (λ x, x ≠ k)) by done.
    rewrite (filter_cons_True (λ kv : string * element, kv.1 ≠ k)) by done.
    rewrite fmap_cons. by f_equal.
Qed.

Lemma dict_drop_absent k (d : dict) :
  k ∉ d.*1 → filter (λ kv, kv.1 ≠ k) d = d.
Proof.
  induction d as [|[k' v'] d IH]; [done|].
  rewrite fmap_cons, not_elem_of_cons.
  intros [Hne Hd].
  rewrite (filter_cons_True (λ kv : string * element, kv.1 ≠ k))
    by (simpl in *; auto).
  f_equal. by apply IH.
Qed.

Lemma dict_del_inr k d d' :
  dict_del k d = inr d' → d' = filter (λ kv, kv.1 ≠ k) d.
Proof. unfold dict_del. destruct (dict_mem k d); by intros [= <-]. Qed.

Lemma dict_del_mem k d : dict_mem k d = true → ∃ d', dict_del k d = inr d'.
Proof. intros Hk. unfold dict_del. rewrite Hk. by eexists. Qed.

Lemma dict_get_elem k v d :
  NoDup d.*1 → (k, v) ∈ d → dict_get k d = inr v.
Proof.
  induction d as [|[k' v'] d IH]; [by intros _ ?%elem_of_nil|].
  rewrite fmap_cons, NoDup_cons, elem_of_cons; simpl.
  intros [Hk' Hd] [[= <- <-] | Hin]; [by rewrite decide_True|].
  rewrite decide_False; [by apply IH|].
  intros ->. apply Hk'. by apply (list_elem_of_fmap_2 fst _ (k, v)).
Qed.

(** ** Strings *)

Lemma list_ascii_of_append a s :
  String.list_ascii_of_string (a +:+ s) =
  String.list_ascii_of_string a ++ String.list_ascii_of_string s.
Proof. induction a as [|c a IH]; simpl; [done | by rewrite IH]. Qed.

Lemma append_nil_r s : s +:+ "" = s.
Proof.
  induction s as [|c s IH]; [done|].
  change (String c (s +:+ "") = String c s). by f_equal.
Qed.

Lemma append_assoc a b c : (a +:+ b) +:+ c = a +:+ (b +:+ c).
Proof.
  induction a as [|x a IH]; [done|].
  change (String x ((a +:+ b) +:+ c) = String x (a +:+ (b +:+ c))).
  by f_equal.
Qed.

Lemma append_inj_r s a b : a +:+ s = b +:+ s → a = b.
Proof.
  intros Heq. apply (f_equal String.list_ascii_of_string) in Heq.
  rewrite !list_ascii_of_append in Heq. apply app_inv_tail in Heq.
  apply (f_equal String.string_of_list_ascii) in Heq.
  by rewrite !String.string_of_list_ascii_of_string in Heq.
Qed.

Lemma duplication_warning_inj n1 n2 :
  duplication_warning n1 = duplication_warning n2 → n1 = n2.
Proof.
  unfold duplication_warning. intros Heq.
  apply String.app_inj in Heq. by apply append_inj_r in Heq.
Qed.

(** ** Merge engine: one child at a time *)

Ltac unfold_M :=
  unfold mbind, mret, M_bind, M_ret, result_mbind, result_mret, bind, ret,
    rbind, result_ret, lift, raise, print in *; simpl in *.

Lemma partition_child_inr st test st' :
  partition_child st test = inr st' →
  if decide (tag test = "testcase") then
    ∃ n, case_name test = Some n ∧
      if is_test_skipped test then
        first_children st' = first_children st ∧
        completed_tests st' = completed_tests st ∧
        skipped_tests st' =
          (if decide (n ∉ (skipped_tests st).*1)
           then skipped_tests st ++ [(n, test)] else skipped_tests st)
      else
        first_children st' = first_children st ++ [test] ∧
        skipped_tests st' = skipped_tests st ∧
        completed_tests st' =
          (if decide (n ∈ completed_tests st)
           then completed_tests st else completed_tests st ++ [n])
  else
    first_children st' = first_children st ++ [test] ∧
    skipped_tests st' = skipped_tests st ∧
    completed_tests st' = completed_tests st.
Proof.
  unfold partition_child, test_get_name, case_name.
  case_decide; [|by intros [= <-]].
  destruct (attrib test !! "name") as [n|]; unfold_M; [|done].
  exists n. split; [done|].
  destruct (is_test_skipped test); simplify_eq; simpl.
  - split; [done|]. split; [done|].
    destruct (dict_mem n (skipped_tests st)) eqn:Hm.
    + apply dict_mem_true in Hm. rewrite decide_False by auto. done.
    + apply dict_mem_false in Hm. rewrite decide_True by done.
      by apply dict_set_fresh.
  - split; [done|]. split; [done|].
    destruct (list_mem n (completed_tests st)) eqn:Hm.
    + apply list_mem_true in Hm. by rewrite decide_True.
    + apply list_mem_false in Hm. by rewrite decide_False.
Qed.

Lemma merge_child_inr st test w st' w' :
  merge_child st test w = (inr st', w') →
  ∃ n, case_name test = Some n ∧
    if is_test_skipped test then
      w' = w ∧
      first_children st' = first_children st ∧
      completed_tests st' = completed_tests st ∧
      skipped_tests st' =
        (if decide ((n ∉ completed_tests st) ∧ (n ∉ (skipped_tests st).*1))
         then skipped_tests st ++ [(n, test)] else skipped_tests st)
    else
      first_children st' = first_children st ++ [test] ∧
      skipped_tests st' = filter (λ kv, kv.1 ≠ n) (skipped_tests st) ∧
      if decide (n ∈ completed_tests st) then
        completed_tests st' = completed_tests st ∧
        stdout w' = stdout w ++ [duplication_warning n]
      else
        completed_tests st' = completed_tests st ++ [n] ∧ w' = w.
Proof.
  unfold merge_child, test_get_name, case_name.
  destruct (attrib test !! "name") as [n|]; unfold_M; [|done].
  intros Hrun. exists n. split; [done|].
  destruct (is_test_skipped test).
  - destruct (list_mem n (completed_tests st)) eqn:Hc;
      destruct (dict_mem n (skipped_tests st)) eqn:Hs;
      simpl in Hrun; simplify_eq; simpl;
      repeat (split; [done|]);
      rewrite ?list_mem_true, ?list_mem_false, ?dict_mem_true,
        ?dict_mem_false in *.
    + rewrite decide_False; [done | tauto].
    + rewrite decide_False; [done | tauto].
    + rewrite decide_False; [done | tauto].
    + rewrite decide_True by done. by apply dict_set_fresh.
  - assert (∀ d, dict_mem n (filter (λ kv, kv.1 ≠ n) d) = false) as Hgone.
    { intros d. apply dict_mem_false. rewrite dict_drop_keys.
      rewrite list_elem_of_filter. tauto. }
    destruct (dict_mem n (skipped_tests st)) eqn:Hs.
    + destruct (dict_del_mem _ _ Hs) as [d Hdel]. rewrite Hdel in Hrun.
      pose proof (dict_del_inr _ _ _ Hdel) as ->.
      rewrite Hgone in Hrun.
      destruct (list_mem n (completed_tests st)) eqn:Hc;
        simpl in Hrun; simplify_eq; simpl;
        repeat (split; [done|]);
        rewrite ?list_mem_true, ?list_mem_false in *.
      * by rewrite decide_True.
      * by rewrite decide_False.
    + apply dict_mem_false in Hs.
      destruct (list_mem n (completed_tests st)) eqn:Hc;
        simpl in Hrun; simplify_eq; simpl;
        rewrite dict_drop_absent by done;
        repeat (split; [done|]);
        rewrite ?list_mem_true, ?list_mem_false in *.
      * by rewrite decide_True.
      * by rewrite decide_False.
Qed.

(** ** Merge engine: what the tables know *)

Lemma tables_inv_nil :
  tables_inv [] {| first_children := []; skipped_tests := [];
                   completed_tests := [] |}.
Proof.
  split; [|split; [|split]]; simpl.
  - intros X. split; [by intros ?%elem_of_nil|].
    intros (c & Hc & _). by apply elem_of_nil in Hc.
  - constructor.
  - intros k e Hin. by apply elem_of_nil in Hin.
  - intros X c Hin. by apply elem_of_nil in Hin.
Qed.

(** A skipped case: the skip table takes it, or it already has the name or
    the name is known as completed. *)
Lemma tables_inv_skip seen st st' n test (add : Prop) `{Decision add} :
  tables_inv seen st → named n true test →
  completed_tests st' = completed_tests st →
  skipped_tests st' =
    (if decide add then skipped_tests st ++ [(n, test)]
     else skipped_tests st) →
  (add → n ∉ (skipped_tests st).*1) →
  (¬ add → n ∈ (skipped_tests st).*1 ∨ n ∈ completed_tests st) →
  tables_inv (seen ++ [test]) st'.
Proof.
  intros (Hcomp & Hnd & Hent & Hskip) Hn Hc Hs Hadd Hnot.
  unfold tables_inv. rewrite Hc, Hs. split; [|split; [|split]].
  - intros X. rewrite Hcomp. split.
    + intros (c & Hin & Hc'). exists c. split; [|done]. set_solver.
    + intros (c & Hin & Hc'). exists c. split; [|done].
      apply elem_of_app in Hin as [Hin | ->%list_elem_of_singleton]; [done|].
      destruct Hn as [_ Hn]. destruct Hc' as [_ Hc']. congruence.
  - case_decide; [|done]. rewrite fmap_app. simpl.
    apply NoDup_app. split; [done|]. split; [|apply NoDup_singleton].
    intros x Hx ->%list_elem_of_singleton. by apply Hadd.
  - intros k e Hin.
    assert ((k, e) ∈ skipped_tests st ∨ (k = n ∧ e = test)) as [Hold | [-> ->]].
    { case_decide; [|by left].
      apply elem_of_app in Hin as [? | Heq%list_elem_of_singleton];
        [by left | right]. by simplify_eq. }
    + destruct (Hent _ _ Hold). split; [set_solver | done].
    + split; [set_solver | done].
  - intros X c Hin Hc' HX.
    assert (X ∈ (skipped_tests st).*1 ∨ (add ∧ X = n)) as [Hold | [Ha ->]].
    { apply elem_of_app in Hin as [Hin | ->%list_elem_of_singleton].
      - left. by eapply Hskip.
      - assert (X = n) as -> by (destruct Hn, Hc'; congruence).
        destruct (decide add) as [Ha | Ha]; [by right|].
        left. destruct (Hnot Ha); [done | contradiction]. }
    + case_decide; [|done]. rewrite fmap_app. set_solver.
    + rewrite decide_True by done. rewrite fmap_app. set_solver.
Qed.

(** A completed case: its name becomes known as completed, and the skip
    table keeps its other entries. *)
Lemma tables_inv_completed seen st st' n test :
  tables_inv seen st → named n false test →
  (∀ X, X ∈ completed_tests st' ↔ X ∈ completed_tests st ∨ X = n) →
  NoDup (skipped_tests st').*1 →
  (∀ kv, kv ∈ skipped_tests st' → kv ∈ skipped_tests st) →
  (∀ X, X ≠ n → X ∈ (skipped_tests st).*1 → X ∈ (skipped_tests st').*1) →
  tables_inv (seen ++ [test]) st'.
Proof.
  intros (Hcomp & Hnd & Hent & Hskip) Hn Hc Hnd' Hsub Hkeep.
  split; [|split; [|split]]; [| done | |].
  - intros X. rewrite Hc, Hcomp. split.
    + intros [(c & Hin & Hc') | ->].
      * exists c. split; [set_solver | done].
      * exists test. split; [set_solver | done].
    + intros (c & Hin & Hc').
      apply elem_of_app in Hin as [Hin | ->%list_elem_of_singleton].
      * left. by exists c.
      * right. destruct Hn, Hc'. congruence.
  - intros k e Hin. destruct (Hent _ _ (Hsub _ Hin)).
    split; [set_solver | done].
  - intros X c Hin Hc' HX.
    rewrite Hc in HX.
    assert ((X ∉ completed_tests st) ∧ X ≠ n) as [HX' Hne] by tauto.
    apply Hkeep; [done|].
    apply elem_of_app in Hin as [Hin | ->%list_elem_of_singleton].
    + by eapply Hskip.
    + destruct Hn as [_ Hn]. destruct Hc' as [_ Hc']. congruence.
Qed.

Lemma partition_child_inv seen st test st' :
  tables_inv seen st → partition_child st test = inr st' →
  tables_inv (seen ++ filter (λ c, tag c = "testcase") [test]) st' ∧
  first_children st' =
    first_children st
    ++ filter (λ c, ¬ (tag c = "testcase" ∧ is_test_skipped c = true)) [test].
Proof.
  intros Hinv Hrun. apply partition_child_inr in Hrun.
  destruct (decide (tag test = "testcase")) as [Ht | Ht].
  - rewrite (filter_cons_True (λ c, tag c = "testcase")) by done.
    rewrite filter_nil.
    destruct Hrun as (n & Hn & Hrun).
    destruct (is_test_skipped test) eqn:Hsk.
    + destruct Hrun as (Hf & Hc & Hs). split.
      * eapply (tables_inv_skip _ _ _ n test (n ∉ (skipped_tests st).*1));
          eauto; [done|].
        intros Hin. left. by destruct (decide (n ∈ (skipped_tests st).*1)).
      * rewrite filter_cons_False by tauto. by rewrite filter_nil, app_nil_r.
    + destruct Hrun as (Hf & Hs & Hc). split.
      * apply (tables_inv_completed seen st st' n test); [done | done | | | |].
        -- intros X. rewrite Hc. case_decide; set_solver.
        -- rewrite Hs. by destruct Hinv as (_ & ? & _).
        -- by rewrite Hs.
        -- by rewrite Hs.
      * rewrite filter_cons_True; [done|]. intros [_ ?]. congruence.
  - destruct Hrun as (Hf & Hs & Hc).
    rewrite (filter_cons_False (λ c, tag c = "testcase")) by done.
    rewrite filter_nil, app_nil_r. split.
    + destruct Hinv as (H1 & H2 & H3 & H4).
      unfold tables_inv. by rewrite Hs, Hc.
    + rewrite filter_cons_True; [done | tauto].
Qed.

Lemma partition_first_inv cs seen st st' :
  tables_inv seen st → partition_first cs st = inr st' →
  tables_inv (seen ++ filter (λ c, tag c = "testcase") cs) st' ∧
  first_children st' =
    first_children st
    ++ filter (λ c, ¬ (tag c = "testcase" ∧ is_test_skipped c = true)) cs.
Proof.
  revert seen st. induction cs as [|c cs IH]; intros seen st Hinv; simpl.
  - intros [= <-]. by rewrite !app_nil_r.
  - unfold_M. destruct (partition_child st c) as [e|st1] eqn:Hc; [done|].
    intros Hrest.
    destruct (partition_child_inv _ _ _ _ Hinv Hc) as [Hinv1 Hf1].
    destruct (IH _ _ Hinv1 Hrest) as [Hinv' Hf'].
    change (c :: cs) with ([c] ++ cs). rewrite !filter_app.
    split; [by rewrite app_assoc|]. by rewrite Hf', Hf1, app_assoc.
Qed.

Lemma merge_child_inv seen st test w st' w' :
  tables_inv seen st → merge_child st test w = (inr st', w') →
  tables_inv (seen ++ [test]) st' ∧
  first_children st' =
    first_children st ++ filter (λ c, is_test_skipped c = false) [test].
Proof.
  intros Hinv Hrun. apply merge_child_inr in Hrun as (n & Hn & Hrun).
  destruct (is_test_skipped test) eqn:Hsk.
  - destruct Hrun as (-> & Hf & Hc & Hs). split.
    + eapply (tables_inv_skip _ _ _ n test
               ((n ∉ completed_tests st) ∧ (n ∉ (skipped_tests st).*1)));
        eauto; [done | tauto |].
      intros Hno.
      destruct (decide (n ∈ (skipped_tests st).*1)); [by left|].
      destruct (decide (n ∈ completed_tests st)); [by right | tauto].
    + rewrite filter_cons_False by congruence. by rewrite filter_nil, app_nil_r.
  - destruct Hrun as (Hf & Hs & Hc). split.
    + apply (tables_inv_completed seen st st' n test); [done | done | | | |].
      * intros X. case_decide; destruct Hc as [-> _]; set_solver.
      * rewrite Hs, dict_drop_keys. apply NoDup_filter.
        by destruct Hinv as (_ & ? & _).
      * intros kv. rewrite Hs, list_elem_of_filter. tauto.
      * intros X Hne. rewrite Hs, dict_drop_keys, list_elem_of_filter. tauto.
    + by rewrite filter_cons_True by done.
Qed.

(** ** Merge engine: warnings *)

Lemma count_lines_snoc line out l :
  count_lines line (out ++ [l]) =
  count_lines line out + (if decide (l = line) then 1 else 0).
Proof.
  unfold count_lines. rewrite filter_app, length_app. f_equal.
  destruct (decide (l = line)) as [Heq | Hne].
  - by rewrite (filter_cons_True (λ l0, l0 = line)).
  - by rewrite (filter_cons_False (λ l0, l0 = line)).
Qed.

Lemma count_named_cons X s c l :
  count_named X s (c :: l) =
  (if decide (named X s c) then 1 else 0) + count_named X s l.
Proof.
  unfold count_named. destruct (decide (named X s c)) as [Hc | Hc].
  - by rewrite (filter_cons_True (named X s)).
  - by rewrite (filter_cons_False (named X s)).
Qed.

Lemma count_named_app X s l1 l2 :
  count_named X s (l1 ++ l2) = count_named X s l1 + count_named X s l2.
Proof. unfold count_named. by rewrite filter_app, length_app. Qed.

Lemma count_named_pos X s l :
  0 < count_named X s l ↔ ∃ c, c ∈ l ∧ named X s c.
Proof.
  unfold count_named. split.
  - destruct (filter (named X s) l) as [|c l'] eqn:Hf; simpl; [lia|].
    intros _. exists c.
    assert (c ∈ filter (named X s) l) as Hin by (rewrite Hf; left).
    apply list_elem_of_filter in Hin. tauto.
  - intros (c & Hin & Hc).
    assert (c ∈ filter (named X s) l) as Hin'
      by (apply list_elem_of_filter; tauto).
    destruct (filter (named X s) l); [by apply elem_of_nil in Hin'|].
    simpl. lia.
Qed.

Lemma merge_child_warn st test w st' w' X :
  merge_child st test w = (inr st', w') →
  count_lines (duplication_warning X) (stdout w') =
    count_lines (duplication_warning X) (stdout w)
    + (if decide (named X false test ∧ X ∈ completed_tests st)
       then 1 else 0) ∧
  (X ∈ completed_tests st' ↔ X ∈ completed_tests st ∨ named X false test).
Proof.
  intros Hrun. apply merge_child_inr in Hrun as (n & Hn & Hrun).
  destruct (is_test_skipped test) eqn:Hsk.
  - destruct Hrun as (-> & _ & -> & _).
    rewrite decide_False by (intros [[_ ?] _]; congruence).
    split; [lia|]. split; [tauto|]. intros [? | [_ ?]]; [done | congruence].
  - destruct Hrun as (_ & _ & Hc).
    destruct (decide (n ∈ completed_tests st)) as [Hin | Hin].
    + destruct Hc as [-> ->]. rewrite count_lines_snoc. split.
      * f_equal. destruct (decide (n = X)) as [-> | Hne].
        -- by rewrite !decide_True.
        -- rewrite !decide_False; [done | |].
           ++ intros [[? _] _]. congruence.
           ++ intros ?%duplication_warning_inj. done.
      * split; [tauto|]. intros [? | [? _]]; [done | congruence].
    + destruct Hc as [-> ->]. split.
      * rewrite decide_False; [lia|]. intros [[? _] ?]. congruence.
      * rewrite elem_of_app, list_elem_of_singleton. split.
        -- intros [? | ->]; [by left | by right].
        -- intros [? | [? _]]; [by left | right; congruence].
Qed.

Lemma merge_children_inv cs seen st w st' w' :
  tables_inv seen st → foldM merge_child cs st w = (inr st', w') →
  tables_inv (seen ++ cs) st' ∧
  first_children st' =
    first_children st ++ filter (λ c, is_test_skipped c = false) cs ∧
  ∀ X, count_lines (duplication_warning X) (stdout w')
       + (if decide (X ∈ completed_tests st ∨ count_named X false cs = 0)
          then 0 else 1)
       = count_lines (duplication_warning X) (stdout w)
         + count_named X false cs.
Proof.
  revert seen st w. induction cs as [|c cs IH]; intros seen st w Hinv; simpl.
  - unfold_M. intros [= <- <-]. rewrite !app_nil_r.
    split; [done|]. split; [done|]. intros X.
    rewrite decide_True by (by right). done.
  - unfold_M. destruct (merge_child st c w) as [[e|st1] w1] eqn:Hc; [done|].
    intros Hrest.
    destruct (merge_child_inv _ _ _ _ _ _ Hinv Hc) as [Hinv1 Hf1].
    destruct (IH _ _ _ Hinv1 Hrest) as (Hinv' & Hf' & Hw').
    change (c :: cs) with ([c] ++ cs) at 1 2. rewrite filter_app.
    split; [by rewrite app_assoc|].
    split; [by rewrite Hf', Hf1, app_assoc|].
    intros X. specialize (Hw' X).
    destruct (merge_child_warn _ _ _ _ _ X Hc) as [Hw1 Hc1].
    rewrite count_named_cons.
    destruct (decide (named X false c));
      destruct (decide (X ∈ completed_tests st));
      repeat case_decide; simpl in *; try lia; exfalso; intuition lia.
Qed.

(** ** Merge engine: the whole run *)

Lemma foldM_app {A S} (f : S → A → M S) l1 l2 s w :
  foldM f (l1 ++ l2) s w =
  match foldM f l1 s w with
  | (inr s', w') => foldM f l2 s' w'
  | (inl e, w') => (inl e, w')
  end.
Proof.
  revert s w. induction l1 as [|a l1 IH]; intros s w; simpl; [done|].
  unfold_M. destruct (f s a w) as [[e|s1] w1]; [done|]. apply IH.
Qed.

Lemma foldM_merge_tree others st w :
  foldM merge_tree others st w = foldM merge_child (later_cases others) st w.
Proof.
  revert st w. induction others as [|t others IH]; intros st w; [done|].
  change (later_cases (t :: others))
    with (children (getroot t) ++ later_cases others).
  rewrite foldM_app. simpl. unfold_M. unfold merge_tree at 1.
  destruct (foldM merge_child (children (getroot t)) st w) as [[e|st1] w1];
    [done|]. apply IH.
Qed.

Lemma add_skipped_spec (d0 : dict) st :
  NoDup (skipped_tests st).*1 →
  (∀ kv, kv ∈ d0 → kv ∈ skipped_tests st) →
  add_skipped d0.*1 st =
  inr (first_children st
       ++ (filter (λ kv, kv.1 ∉ completed_tests st) d0).*2).
Proof.
  intros Hnd. revert st Hnd.
  induction d0 as [|[k v] d0 IH]; intros st Hnd Hsub.
  - simpl. by rewrite app_nil_r.
  - rewrite fmap_cons. cbn [add_skipped fst].
    assert ((k, v) ∈ skipped_tests st) as Hkv by (apply Hsub; left).
    assert (∀ kv, kv ∈ d0 → kv ∈ skipped_tests st) as Hsub'
      by (intros kv ?; apply Hsub; by right).
    destruct (list_mem k (completed_tests st)) eqn:Hm.
    + apply list_mem_true in Hm.
      rewrite (filter_cons_False (λ kv : string * element,
                 kv.1 ∉ completed_tests st)) by (simpl; tauto).
      by apply IH.
    + apply list_mem_false in Hm.
      rewrite (filter_cons_True (λ kv : string * element,
                 kv.1 ∉ completed_tests st)) by done.
      rewrite (dict_get_elem _ _ _ Hnd Hkv).
      unfold mbind, result_mbind, rbind, mret, result_mret, result_ret.
      rewrite (IH {| first_children := first_children st ++ [v];
                     skipped_tests := skipped_tests st;
                     completed_tests := completed_tests st |}) by done.
      simpl. by rewrite <- app_assoc.
Qed.

(** The children that the merge leaves in the first root. *)
Lemma kept_children_split (cs : list element) :
  filter (λ c, ¬ (tag c = "testcase" ∧ is_test_skipped c = true)) cs ≡ₚ
  filter (λ c, tag c ≠ "testcase") cs
  ++ filter (λ c, is_test_skipped c = false)
       (filter (λ c, tag c = "testcase") cs).
Proof.
  induction cs as [|c cs IH]; [done|].
  destruct (decide (tag c = "testcase")) as [Ht | Ht].
  - rewrite (filter_cons_False (λ c, tag c ≠ "testcase")) by tauto.
    rewrite (filter_cons_True (λ c, tag c = "testcase")) by done.
    destruct (is_test_skipped c) eqn:Hs.
    + rewrite (filter_cons_False (λ c, ¬ (tag c = "testcase"
                                          ∧ is_test_skipped c = true)))
        by tauto.
      rewrite (filter_cons_False (λ c, is_test_skipped c = false))
        by congruence.
      done.
    + rewrite (filter_cons_True (λ c, ¬ (tag c = "testcase"
                                         ∧ is_test_skipped c = true)))
        by (intros [_ ?]; congruence).
      rewrite (filter_cons_True (λ c, is_test_skipped c = false)) by done.
      rewrite IH. by rewrite Permutation_middle.
  - rewrite (filter_cons_True (λ c, tag c ≠ "testcase")) by done.
    rewrite (filter_cons_False (λ c, tag c = "testcase")) by done.
    rewrite (filter_cons_True (λ c, ¬ (tag c = "testcase"
                                       ∧ is_test_skipped c = true)))
      by tauto.
    simpl. by rewrite IH.
Qed.

Section merge_facts.
Context `{PyFloat}.

(** A merge of two or more trees that ends normally: the children of the
    result are those left in the first root, then the completed cases of the
    later trees in order, then the skipped cases still in the table whose
    name is not known as completed. *)
Lemma merge_trees_inr first_tree second others w out w' :
  merge_trees (first_tree :: second :: others) w = (inr out, w') →
  ∃ st,
    tables_inv (findall "testcase" (getroot first_tree)
                ++ later_cases (second :: others)) st ∧
    children (getroot out) =
      filter (λ c, ¬ (tag c = "testcase" ∧ is_test_skipped c = true))
        (children (getroot first_tree))
      ++ filter (λ c, is_test_skipped c = false)
           (later_cases (second :: others))
      ++ (filter (λ kv, kv.1 ∉ completed_tests st) (skipped_tests st)).*2 ∧
    test_suite_update_attribs
      (set_children (children (getroot out)) (getroot first_tree))
      = inr (getroot out) ∧
    ∀ X, count_lines (duplication_warning X) (stdout w')
         + (if decide (0 < count_named X false
                            (findall "testcase" (getroot first_tree))
                       ∨ count_named X false
                           (later_cases (second :: others)) = 0)
            then 0 else 1)
         = count_lines (duplication_warning X) (stdout w)
           + count_named X false (later_cases (second :: others)).
Proof.
  unfold merge_trees. rewrite decide_False by (simpl; lia).
  generalize (second :: others). intros rest. unfold_M.
  destruct (partition_first _ _) as [e|st1] eqn:Hp; [done|].
  rewrite foldM_merge_tree.
  destruct (foldM merge_child _ st1 w) as [[e|st2] w2] eqn:Hm; [done|].
  destruct (partition_first_inv _ _ _ _ tables_inv_nil Hp) as [Hinv1 Hf1].
  destruct (merge_children_inv _ _ _ _ _ _ Hinv1 Hm) as (Hinv2 & Hf2 & Hw2).
  simpl in Hinv1, Hinv2, Hf1.
  rewrite (add_skipped_spec (skipped_tests st2) st2);
    [| by destruct Hinv2 as (_ & ? & _) | done].
  destruct (test_suite_update_attribs _) as [e|root] eqn:Hu; [done|].
  intros [= <- <-]. simpl.
  destruct (update_attribs_inr _ _ Hu) as (sst & _ & ->).
  destruct (write_state_shape sst
              (set_children
                 (first_children st2 ++
                  (filter (λ kv, kv.1 ∉ completed_tests st2)
                     (skipped_tests st2)).*2)
                 (getroot first_tree))) as (_ & _ & _ & Hch & _).
  assert (∀ cs e, children (set_children cs e) = cs) as Hset
    by (by intros ? []).
  rewrite Hset in Hch. rewrite Hch.
  exists st2. split; [done|]. split; [by rewrite Hf2, Hf1, app_assoc|].
  split; [done|].
  intros X. rewrite <- (Hw2 X).
  destruct Hinv1 as (Hcomp & _). specialize (Hcomp X).
  rewrite <- count_named_pos in Hcomp.
  f_equal. repeat case_decide; try done; exfalso; tauto.
Qed.

End merge_facts.

(** ** Attribute aggregator: what is read and counted *)

Section aggregator_reads.
Context `{PyFloat}.

Lemma test_time_inr test x :
  test_time test = inr x ↔
  float_of_str (default "0" (attrib test !! "time")) = Some x.
Proof.
  unfold test_time.
  destruct (float_of_str (default "0" (attrib test !! "time"))) as [y|].
  - split; by intros [= ->].
  - split; by intros ?.
Qed.

Lemma scan_cases_skipped cases st st' :
  scan_cases cases st = inr st' →
  skipped st' =
    skipped st
    + length (filter (λ c, is_test_state c "skipped" = true) cases).
Proof.
  revert st. induction cases as [|test cases IH]; intros st; simpl.
  - intros [= <-]. lia.
  - destruct (update_state st test) as [e|st1] eqn:Hst1; simpl; [done|].
    intros Hscan. rewrite (IH _ Hscan).
    destruct (update_state_inr _ _ _ Hst1) as (t & _ & _ & Hcase).
    destruct (is_test_state test "skipped") eqn:Hsk.
    + rewrite (filter_cons_True (λ c, is_test_state c "skipped" = true))
        by done.
      destruct Hcase as (-> & _). simpl. lia.
    + rewrite (filter_cons_False (λ c, is_test_state c "skipped" = true))
        by congruence.
      destruct Hcase as (-> & _). lia.
Qed.

End aggregator_reads.

(** * Main theorems *)

Section claims.
Context `{PyFloat}.

(** C3. Identity law: merging the one-element sequence [[T]] returns [T]
    itself, with the same children and attributes, prints nothing and does
    not run the attribute aggregator. *)
Theorem merge_single_identity (T : ElementTree) (w : world) :
  merge_trees [T] w = (inr T, w).
Proof. reflexivity. Qed.


(** C6, as amended.  A test case without a [time] attribute adds [0.0] to
    the sum and the scan goes on.  A [time] value that [float] cannot read
    raises [ValueError]: the case is not counted and the aggregation of any
    suite that contains it ends with an exception. *)
Theorem time_missing_or_unparsable (st : suite_state) (test : element) :
  (attrib test !! "time" = None →
     ∃ st', update_state st test = inr st' ∧
            time st' = float_add (time st) float_zero) ∧
  (∀ v, attrib test !! "time" = Some v → float_of_str v = None →
     update_state st test = inl (ValueError v) ∧
     ∀ test_suite, test ∈ iter "testcase" test_suite →
                   ∃ e, test_suite_update_attribs test_suite = inl e).
Proof.
  split.
  - intros Hmiss. pose proof (test_time_missing _ Hmiss) as Ht.
    unfold update_state. rewrite Ht. simpl.
    eexists. split; [done|].
    destruct (is_test_state test "skipped"); simpl; [done|].
    destruct (is_test_state test "failure"); simpl; [done|].
    by destruct (is_test_state test "error").
  - intros v Hv Hbad. pose proof (test_time_unparsable _ _ Hv Hbad) as Ht.
    split; [by apply update_state_inl|].
    intros test_suite Hin. unfold test_suite_update_attribs.
    destruct (scan_cases_inl _ suite_state_init _ _ Hin Ht) as [e ->].
    by exists e.
Qed.

(** C10. Aggregator frame.  A run of the aggregator that ends normally
    returns the suite with the same tag, text, tail and children; the keys
    [tests], [skipped], [failures], [errors] and [time] are present
    afterwards; every other key holds what it held before. *)
Theorem aggregator_frame (test_suite out : element) :
  test_suite_update_attribs test_suite = inr out →
  tag out = tag test_suite ∧ text out = text test_suite ∧
  tail out = tail test_suite ∧ children out = children test_suite ∧
  dom (attrib out) =
    dom (attrib test_suite)
    ∪ {["tests"; "skipped"; "failures"; "errors"; "time"]} ∧
  ∀ k, k ∉ ["tests"; "skipped"; "failures"; "errors"; "time"] →
       attrib out !! k = attrib test_suite !! k.
Proof.
  intros Hrun. destruct (update_attribs_inr _ _ Hrun) as (st & _ & ->).
  destruct (write_state_shape st test_suite) as (-> & -> & -> & -> & ->).
  repeat (split; [done|]). split.
  - rewrite !dom_insert_L. set_solver.
  - intros k Hk. rewrite !not_elem_of_cons in Hk.
    destruct Hk as (? & ? & ? & ? & ? & _).
    by rewrite !lookup_insert_ne.
Qed.

(** C4. Aggregate consistency.  After a merge of two or more suites the
    root carries [tests], [skipped], [failures], [errors] and [time] such
    that tests + skipped is the number of [testcase] elements of the final
    tree, failures ≤ tests, errors ≤ tests, and [time] is the text of the
    float sum, in document order, of what [float] reads from the [time]
    attribute of each of those elements (from ["0"] where the attribute is
    missing); [skipped] is the number of those elements that have a
    [skipped] marker.  The last two are stated for a root that is not itself
    tagged [testcase], as the root of a suite is. *)
Theorem aggregate_consistency (trees : list ElementTree) (w w' : world)
    (out : ElementTree) :
  2 ≤ length trees →
  merge_trees trees w = (inr out, w') →
  ∃ (t s f e : nat) (times : list float),
    attrib (getroot out) !! "tests" = Some (text_type_int t) ∧
    attrib (getroot out) !! "skipped" = Some (text_type_int s) ∧
    attrib (getroot out) !! "failures" = Some (text_type_int f) ∧
    attrib (getroot out) !! "errors" = Some (text_type_int e) ∧
    attrib (getroot out) !! "time" =
      Some (text_type_float (foldl float_add float_zero times)) ∧
    t + s = length (iter "testcase" (getroot out)) ∧
    f ≤ t ∧ e ≤ t ∧
    (tag (getroot out) ≠ "testcase" →
     Forall2 (λ c x, float_of_str (default "0" (attrib c !! "time")) = Some x)
       (iter "testcase" (getroot out)) times ∧
     s = length (filter (λ c, is_test_state c "skipped" = true)
                   (iter "testcase" (getroot out)))).
Proof.
  intros Hlen Hrun.
  destruct trees as [|first_tree [|second others]]; simpl in Hlen; try lia.
  destruct (merge_trees_inr _ _ _ _ _ _ Hrun) as (_ & _ & _ & Hu & _).
  destruct (update_attribs_inr _ _ Hu) as (st & Hscan & Hout).
  destruct (scan_cases_inr _ _ _ Hscan) as (Hcount & Hle & times & Ht & Hsum).
  pose proof (scan_cases_skipped _ _ _ Hscan) as Hskipped.
  simpl in Hcount, Hle, Hsum, Hskipped. specialize (Hle ltac:(lia)).
  destruct (write_state_shape st
              (set_children (children (getroot out)) (getroot first_tree)))
    as (Htag & _ & _ & Hch & Hattr).
  rewrite <- Hout in Htag, Hch, Hattr.
  destruct (iter_same_shape "testcase" _ _ Htag Hch) as [Hlen' Hiter].
  exists (tests st), (skipped st), (failures st), (errors st), times.
  rewrite Hattr.
  split; [by rewrite !lookup_insert_ne, lookup_insert_eq by done|].
  split; [by rewrite !lookup_insert_ne, lookup_insert_eq by done|].
  split; [by rewrite !lookup_insert_ne, lookup_insert_eq by done|].
  split; [by rewrite !lookup_insert_ne, lookup_insert_eq by done|].
  split; [by rewrite lookup_insert_eq, Hsum|].
  split; [lia|]. split; [lia|]. split; [lia|].
  intros Hroot. rewrite Hiter by (by rewrite <- Htag). split; [|done].
  eapply Forall2_impl; [exact Ht|]. intros c x Hc. by apply test_time_inr.
Qed.

End claims.

(** ** Counting the cases of a name *)

Lemma input_cases_seen first_tree others j tj e :
  (first_tree :: others) !! j = Some tj →
  e ∈ input_cases j tj →
  e ∈ findall "testcase" (getroot first_tree) ++ later_cases others.
Proof.
  destruct j as [|j]; simpl.
  - intros [= <-] He. apply elem_of_app. by left.
  - intros Hj He. apply elem_of_app. right.
    unfold later_cases. apply list_elem_of_bind. exists tj.
    split; [done|]. by eapply list_elem_of_lookup_2.
Qed.

Lemma count_named_perm X s l1 l2 :
  l1 ≡ₚ l2 → count_named X s l1 = count_named X s l2.
Proof. intros Hp. unfold count_named. by rewrite Hp. Qed.

Lemma count_named_filter_same X s l :
  count_named X s (filter (λ c, is_test_skipped c = s) l) = count_named X s l.
Proof.
  unfold count_named. rewrite list_filter_filter.
  f_equal. apply list_filter_iff. intros c. unfold named. tauto.
Qed.

Lemma count_named_filter_other X s s' l :
  s ≠ s' →
  count_named X s (filter (λ c, is_test_skipped c = s') l) = 0.
Proof.
  intros Hne. unfold count_named. rewrite list_filter_filter.
  induction l as [|c l IH]; [done|].
  rewrite filter_cons_False; [done|]. unfold named. intros [[_ ?] ?].
  congruence.
Qed.

Lemma count_named_zero X s l :
  (∀ c, c ∈ l → ¬ named X s c) → count_named X s l = 0.
Proof.
  intros Hno. destruct (count_named X s l) eqn:Hc; [done|].
  assert (0 < count_named X s l) as Hpos by lia.
  apply count_named_pos in Hpos as (c & Hin & Hn). by destruct (Hno c Hin).
Qed.

(** The entries of a table whose elements carry their key as name. *)
Lemma count_named_entries X (d : dict) :
  NoDup d.*1 → (∀ k e, (k, e) ∈ d → named k true e) →
  count_named X true d.*2 = if decide (X ∈ d.*1) then 1 else 0.
Proof.
  induction d as [|[k e] d IH]; [done|].
  rewrite !fmap_cons, NoDup_cons. simpl. intros [Hk Hnd] Hent.
  rewrite count_named_cons, IH;
    [| done | intros k' e' Hin; apply Hent; by right].
  assert (named k true e) as [Hname Hskip] by (apply Hent; left).
  destruct (decide (X = k)) as [-> | Hne].
  - rewrite (decide_True (P := named k true e)) by done.
    rewrite (decide_False (P := k ∈ d.*1)) by done.
    by rewrite decide_True by left.
  - rewrite (decide_False (P := named X true e))
      by (intros [? _]; congruence).
    destruct (decide (X ∈ d.*1)) as [Hin | Hin].
    + by rewrite decide_True by (by right).
    + rewrite decide_False; [done|]. rewrite elem_of_cons. tauto.
Qed.

Section merge_counts.
Context `{PyFloat}.

(** How often a name occurs among the children of a merge of two or more
    trees, completed and skipped. *)
Lemma merge_trees_counts first_tree second others w out w' X :
  merge_trees (first_tree :: second :: others) w = (inr out, w') →
  let cases := findall "testcase" (getroot first_tree)
               ++ later_cases (second :: others) in
  count_named X false (children (getroot out)) =
    count_named X false (untouched first_tree) + count_named X false cases ∧
  count_named X true (children (getroot out)) =
    count_named X true (untouched first_tree)
    + (if decide (count_named X false cases = 0
                  ∧ 0 < count_named X true cases) then 1 else 0).
Proof.
  intros Hrun cases.
  destruct (merge_trees_inr _ _ _ _ _ _ Hrun) as (st & Hinv & Hch & _).
  fold cases in Hinv. destruct Hinv as (Hcomp & Hnd & Hent & Hskip).
  set (d := filter (λ kv, kv.1 ∉ completed_tests st) (skipped_tests st))
    in *.
  assert (NoDup d.*1) as Hnd'.
  { eapply sublist_NoDup; [exact Hnd|].
    apply (fmap_sublist fst), sublist_filter. }
  assert (∀ k e, (k, e) ∈ d →
            (k, e) ∈ skipped_tests st ∧ k ∉ completed_tests st) as Hd.
  { intros k e Hin. apply list_elem_of_filter in Hin. tauto. }
  assert (∀ k e, (k, e) ∈ d → named k true e) as Hent'.
  { intros k e Hin. apply Hd in Hin as [Hin _].
    by destruct (Hent _ _ Hin). }
  assert (X ∈ completed_tests st ↔ count_named X false cases ≠ 0) as HX.
  { rewrite Hcomp, <- count_named_pos. lia. }
  rewrite Hch, !count_named_app.
  rewrite !(count_named_perm _ _ _ _ (kept_children_split _)).
  rewrite !count_named_app. fold (untouched first_tree).
  fold (findall "testcase" (getroot first_tree)).
  rewrite !count_named_filter_same.
  rewrite !(count_named_filter_other X true false) by done.
  unfold cases at 1. rewrite count_named_app.
  split.
  - assert (count_named X false d.*2 = 0) as ->; [|lia].
    apply count_named_zero. intros c Hin [_ Hc].
    apply list_elem_of_fmap in Hin as ([k e] & -> & Hin).
    apply Hent' in Hin as [_ Hs]. simpl in Hc. congruence.
  - rewrite (count_named_entries X d Hnd' Hent').
    assert ((if decide (X ∈ d.*1) then 1 else 0) =
            (if decide (count_named X false cases = 0
                        ∧ 0 < count_named X true cases) then 1 else 0))
      as ->; [|unfold cases; rewrite !count_named_app; lia].
    assert (X ∈ d.*1 ↔ X ∈ (skipped_tests st).*1 ∧ X ∉ completed_tests st)
      as Hkey.
    { unfold d. rewrite !list_elem_of_fmap. split.
      - intros ([k e] & -> & Hin). apply list_elem_of_filter in Hin.
        destruct Hin as [Hno Hin]. split; [|done].
        exists (k, e). by split.
      - intros [([k e] & -> & Hin) Hno]. exists (k, e). split; [done|].
        apply list_elem_of_filter. by split. }
    assert (X ∉ completed_tests st →
            (X ∈ (skipped_tests st).*1 ↔ 0 < count_named X true cases))
      as Hsk.
    { intros Hno. rewrite count_named_pos. split.
      - intros Hin. apply list_elem_of_fmap in Hin as ([k e] & -> & Hin).
        apply Hent in Hin as [Hin Hn]. by exists e.
      - intros (c & Hin & Hn). by eapply Hskip. }
    destruct (decide (X ∈ completed_tests st)) as [Hc | Hc].
    + rewrite decide_False by tauto. rewrite decide_False; [done|].
      intros [Hz _]. tauto.
    + specialize (Hsk Hc).
      destruct (decide (X ∈ (skipped_tests st).*1)) as [Hs | Hs].
      * rewrite !decide_True; [done | | tauto].
        split; [|tauto]. destruct (count_named X false cases); [done|].
        exfalso. apply Hc. apply HX. lia.
      * rewrite !decide_False; [done | tauto | tauto].
Qed.

End merge_counts.

Section claims_merge.
Context `{PyFloat}.

(** A completed case of any input is a child of the result. *)
Lemma completed_case_kept trees w out w' j tj ej :
  merge_trees trees w = (inr out, w') →
  trees !! j = Some tj → ej ∈ input_cases j tj →
  is_test_skipped ej = false →
  ej ∈ children (getroot out).
Proof.
  intros Hrun Hj Hej Hs.
  destruct trees as [|first_tree [|second others]].
  - done.
  - unfold merge_trees in Hrun. rewrite decide_True in Hrun by (simpl; lia).
    injection Hrun as <- <-.
    destruct j as [|j]; [|done]. injection Hj as <-. simpl in Hej.
    unfold findall in Hej. apply list_elem_of_filter in Hej. tauto.
  - destruct (merge_trees_inr _ _ _ _ _ _ Hrun) as (st & _ & -> & _).
    rewrite !elem_of_app, !list_elem_of_filter.
    pose proof (input_cases_seen _ _ _ _ _ Hj Hej) as Hseen.
    apply elem_of_app in Hseen as [Hin | Hin].
    + left. unfold findall in Hin. apply list_elem_of_filter in Hin.
      split; [|tauto]. intros [_ ?]. congruence.
    + right. left. by split.
Qed.

(** C1. Skip override is order-independent.  When some input [i] has a
    skipped case named [X] and some input [j] has a completed case named [X],
    the completed case is a child of the merged result, whichever of [i] and
    [j] comes first and whether or not one of them is the first suite.  With
    two or more inputs no skipped case named [X] is put back: a skipped
    child named [X] of the result can only be a child of the first root that
    is not tagged [testcase], which the merge never looks at. *)
Theorem skip_override_order_independent
    (trees : list ElementTree) (w w' : world) (out : ElementTree)
    (i j : nat) (ti tj : ElementTree) (ei ej : element) (X : string) :
  merge_trees trees w = (inr out, w') →
  trees !! i = Some ti → ei ∈ input_cases i ti → named X true ei →
  trees !! j = Some tj → ej ∈ input_cases j tj → named X false ej →
  ej ∈ children (getroot out) ∧
  (2 ≤ length trees →
   ∀ c, c ∈ children (getroot out) → named X true c →
        ∃ t0, trees !! 0 = Some t0 ∧ c ∈ untouched t0).
Proof.
  intros Hrun Hi Hei Hni Hj Hej Hnj. split.
  - eapply completed_case_kept; eauto. by destruct Hnj.
  - intros Hlen c Hc Hnc.
    destruct trees as [|first_tree [|second others]]; simpl in Hlen; try lia.
    exists first_tree. split; [done|].
    destruct (merge_trees_inr _ _ _ _ _ _ Hrun) as (st & Hinv & Hch & _).
    destruct Hinv as (Hcomp & _ & Hent & _).
    rewrite Hch, !elem_of_app, !list_elem_of_filter in Hc.
    destruct Hnc as [Hname Hskip].
    destruct Hc as [[Hkeep Hin] | [[Hs _] | Hmat]].
    + unfold untouched. apply list_elem_of_filter. split; [|done].
      intros Ht. by apply Hkeep.
    + congruence.
    + exfalso. apply list_elem_of_fmap in Hmat as ([k e] & -> & Hin).
      apply list_elem_of_filter in Hin as [Hno Hin]. simpl in Hno, Hname.
      destruct (Hent _ _ Hin) as [_ [Hk _]].
      assert (k = X) as -> by congruence.
      apply Hno, Hcomp. exists ej. split; [|done].
      exact (input_cases_seen first_tree (second :: others) j tj ej Hj Hej).
Qed.

(** C2, as amended.  In a merge of two or more suites, count as cases the
    children tagged [testcase] of the first suite and all children of the
    later suites.  A name with at least one completed case has all its
    completed cases among the children of the result, as many as the inputs
    have, and none of its skipped cases is put back.  A name with skipped
    cases only has exactly one of them put back.  The children of the first
    root that are not tagged [testcase] stay as they are. *)
Theorem merged_name_partition
    (first_tree second : ElementTree) (others : list ElementTree)
    (w w' : world) (out : ElementTree) (X : string) :
  merge_trees (first_tree :: second :: others) w = (inr out, w') →
  let cases := findall "testcase" (getroot first_tree)
               ++ later_cases (second :: others) in
  (0 < count_named X false cases →
     count_named X false (children (getroot out)) =
       count_named X false (untouched first_tree)
       + count_named X false cases ∧
     count_named X true (children (getroot out)) =
       count_named X true (untouched first_tree)) ∧
  (count_named X false cases = 0 → 0 < count_named X true cases →
     count_named X false (children (getroot out)) =
       count_named X false (untouched first_tree) ∧
     count_named X true (children (getroot out)) =
       count_named X true (untouched first_tree) + 1).
Proof.
  intros Hrun cases.
  destruct (merge_trees_counts _ _ _ _ _ _ X Hrun) as [Hc Hs].
  fold cases in Hc, Hs. rewrite Hc, Hs.
  split.
  - intros Hpos. rewrite decide_False by lia. lia.
  - intros Hz Hpos. rewrite decide_True by done. lia.
Qed.

(** C7, as amended.  Every completed case of every input is a child of the
    merged result and the result has as many completed cases named [X] as
    the inputs together.  A completed case of a later suite whose name is
    already known as completed prints one warning: the warnings for [X] are
    as many as its completed cases in the later suites, less one when the
    first suite has none.  Repeated names inside the first suite print
    nothing. *)
Theorem duplicates_kept_and_warned
    (first_tree second : ElementTree) (others : list ElementTree)
    (w w' : world) (out : ElementTree) (X : string) :
  merge_trees (first_tree :: second :: others) w = (inr out, w') →
  let trees := first_tree :: second :: others in
  (∀ j tj ej, trees !! j = Some tj → ej ∈ input_cases j tj →
              named X false ej → ej ∈ children (getroot out)) ∧
  count_named X false (children (getroot out)) =
    count_named X false (later_cases trees) ∧
  count_lines (duplication_warning X) (stdout w') =
    count_lines (duplication_warning X) (stdout w)
    + (count_named X false (later_cases (second :: others))
       - (if decide (count_named X false
                       (findall "testcase" (getroot first_tree)) = 0)
          then 1 else 0)).
Proof.
  intros Hrun trees. split; [|split].
  - intros j tj ej Hj Hej [_ Hs]. by eapply completed_case_kept.
  - destruct (merge_trees_counts _ _ _ _ _ _ X Hrun) as [-> _].
    unfold trees.
    change (later_cases (first_tree :: second :: others))
      with (children (getroot first_tree) ++ later_cases (second :: others)).
    rewrite !count_named_app.
    rewrite <- (count_named_perm X false _ _
                  (filter_app_complement (λ c, tag c = "testcase")
                     (children (getroot first_tree)))).
    rewrite count_named_app. unfold untouched, findall. lia.
  - destruct (merge_trees_inr _ _ _ _ _ _ Hrun) as (_ & _ & _ & _ & Hw).
    specialize (Hw X).
    repeat case_decide; try lia; exfalso; intuition lia.
Qed.

End claims_merge.

(** ** CDATA-aware serializer *)

#[global] Instance item_le_trans : Transitive item_le.
Proof. intros x y z. unfold item_le. apply transitivity. Qed.

#[global] Instance item_le_total : Total item_le.
Proof. intros x y. unfold item_le. apply total, _. Qed.

(** [sorted(elem.attrib.items())] holds the items of the dictionary, each
    once, in the order of their keys. *)
Lemma sorted_items_spec (a : gmap string string) :
  sorted_items a ≡ₚ map_to_list a ∧
  StronglySorted (λ x y, String.le x.1 y.1) (sorted_items a) ∧
  NoDup (sorted_items a).*1.
Proof.
  unfold sorted_items. split; [apply merge_sort_Permutation|]. split.
  - apply (StronglySorted_merge_sort item_le).
  - rewrite merge_sort_Permutation. apply NoDup_fst_map_to_list.
Qed.

Lemma append_nonempty a c b : a +:+ String c b ≠ "".
Proof. by destruct a. Qed.

Lemma join_nonempty sep x l : x ≠ "" → join sep (x :: l) ≠ "".
Proof.
  intros Hx. destruct l as [|y l]; [done|].
  change (join sep (x :: y :: l)) with (x +:+ sep +:+ join sep (y :: l)).
  by destruct x.
Qed.

Lemma join_space_concat x l :
  " " +:+ join " " (x :: l) = concat_strings ((λ s, " " +:+ s) <$> x :: l).
Proof.
  revert x. induction l as [|y l IH]; intros x.
  - change (" " +:+ x = (" " +:+ x) +:+ ""). by rewrite append_nil_r.
  - change (join " " (x :: y :: l)) with (x +:+ " " +:+ join " " (y :: l)).
    rewrite IH. symmetry.
    exact (append_assoc " " x
             (concat_strings ((λ s, " " +:+ s) <$> y :: l))).
Qed.

(** The attribute part of the opening tag: every item preceded by a space,
    nothing when there is no attribute. *)
Lemma attrs_concat (items : list (string * string)) :
  (if decide (join " " (format_attr <$> items) = "") then ""
   else " " +:+ join " " (format_attr <$> items)) =
  concat_strings
    ((λ kv, " " +:+ kv.1 +:+ "=" +:+ quoteattr kv.2) <$> items).
Proof.
  destruct items as [|kv items]; [done|].
  rewrite fmap_cons, decide_False.
  - rewrite join_space_concat, <- fmap_cons, <- list_fmap_compose. done.
  - apply join_nonempty. unfold format_attr.
    change (kv.1 +:+ String "=" (quoteattr kv.2) ≠ "").
    apply append_nonempty.
Qed.

Section serializer_facts.
Context `{StdSerializer}.

Lemma run_serializer_cname global original elem :
  tag elem ∈ CNAME_TAGS →
  run_serializer global elem (CnameSerializeXml original) = cname_element elem.
Proof.
  intros Ht. destruct elem as [tg a x tl cs]. simpl in *.
  by rewrite bool_decide_eq_true_2.
Qed.

Lemma run_serializer_other global original elem :
  tag elem ∉ CNAME_TAGS →
  run_serializer global elem (CnameSerializeXml original) =
  run_serializer global elem original.
Proof.
  intros Ht. destruct elem as [tg a x tl cs]. simpl in *.
  by rewrite bool_decide_eq_false_2.
Qed.

Lemma run_serializer_same_kids g1 g2 elem :
  Forall (λ c, run_serializer g2 c g2 = run_serializer g1 c g1)
    (children elem) →
  ∀ s, run_serializer g2 elem s = run_serializer g1 elem s.
Proof.
  destruct elem as [tg a x tl cs]. simpl. intros Hkids s.
  induction s as [|s IH]; simpl.
  - f_equal. induction Hkids as [|c cs' Hc _ IHcs]; [done|]. by f_equal.
  - by rewrite IH.
Qed.

(** What the patched serializer writes for an element of the four tags that
    has a text: the opening tag with the attributes in key order, each value
    through [quoteattr]; the text as it is between the CDATA delimiters; the
    closing tag.  Neither the children nor the tail are written. *)
Lemma cname_serialization global original tg a t tl cs :
  tg ∈ CNAME_TAGS →
  run_serializer global (Element tg a (Some t) tl cs)
    (CnameSerializeXml original) =
  "<" +:+ tg
  +:+ concat_strings
        ((λ kv, " " +:+ kv.1 +:+ "=" +:+ quoteattr kv.2) <$> sorted_items a)
  +:+ ">" +:+ "<![CDATA[" +:+ t +:+ "]]>" +:+ "</" +:+ tg +:+ ">".
Proof.
  intros Ht. rewrite run_serializer_cname by done.
  unfold cname_element.
  change (tag (Element tg a (Some t) tl cs)) with tg.
  change (attrib (Element tg a (Some t) tl cs)) with a.
  change (format_text (text (Element tg a (Some t) tl cs))) with t.
  cbv zeta. by rewrite attrs_concat, !append_assoc.
Qed.

(** A body that ends normally leaves ElementTree as [patch_etree_cname]
    found it, provided the two places held the same function. *)
Lemma patch_restored_on_return tree output w w' :
  patch_etree_cname (tree_write tree output) w = (inr (), w') →
  etree_serialize_xml w' = etree_serialize_xml w ∧
  etree_serialize w' = etree_serialize_xml w.
Proof.
  unfold patch_etree_cname.
  destruct (tree_write _ _ _) as [[e|[]] w1]; [done|].
  by intros [= <-].
Qed.

(** A body that raises leaves the patch installed. *)
Lemma patch_kept_on_raise tree w :
  patch_etree_cname (tree_write tree (mkSink false)) w =
  (inl IOError,
   set_serializers (CnameSerializeXml (etree_serialize_xml w)) w).
Proof. reflexivity. Qed.

(** C8. CDATA serialization: the text-less element.  For [<skipped/>]
    (no text, as the parser leaves it) the patched serializer writes the
    word [None] between the CDATA delimiters, where the element has no text
    content at all. *)
Theorem cdata_of_missing_text (global original : serializer) :
  text (Element "skipped" ∅ None None []) = None ∧
  run_serializer global (Element "skipped" ∅ None None [])
    (CnameSerializeXml original)
  = "<skipped><![CDATA[None]]></skipped>".
Proof. split; reflexivity. Qed.

End serializer_facts.

(** The example of the specification: the ampersand stays as it is. *)
Example system_out_ampersand :
  run_serializer (CnameSerializeXml StdSerializeXml)
    (marker "system-out" "A & B") (CnameSerializeXml StdSerializeXml)
  = "<system-out><![CDATA[A & B]]></system-out>".
Proof. reflexivity. Qed.

(** C9. The patch outlives a failed write.  [merge_xunit] on an output that
    raises ends with [IOError] and leaves the CDATA closure installed in
    [etree._serialize_xml] and [etree._serialize['xml']]: the next
    serialization by any caller writes CDATA where the library alone would
    escape the text. *)
Theorem patch_outlives_failed_write :
  ∃ w',
    merge_xunit [inr suite1; inr suite2] (mkSink false) None world0
      = (inl IOError, w') ∧
    etree_serialize_xml w' = CnameSerializeXml StdSerializeXml ∧
    etree_serialize w' = CnameSerializeXml StdSerializeXml ∧
    run_serializer (etree_serialize_xml w') (marker "system-out" "A & B")
      (etree_serialize w')
      = "<system-out><![CDATA[A & B]]></system-out>" ∧
    run_serializer (etree_serialize_xml world0) (marker "system-out" "A & B")
      (etree_serialize world0)
      = "<system-out>A &amp; B</system-out>".
Proof.
  eexists. split; [vm_compute; reflexivity|].
  repeat split; vm_compute; reflexivity.
Qed.

(** * The theorems on the end-to-end scenario *)

Ltac in_list :=
  vm_compute;
  repeat first [ apply list_elem_of_here | apply list_elem_of_further ].

(** Q is skipped in one report and passes in the other: the passing Q is in
    the result in either order of the reports. *)
Lemma skip_override_witness :
  passed "Q" ∈ children (getroot merged12) ∧
  passed "Q" ∈ children (getroot merged21).
Proof.
  split.
  - apply (skip_override_order_independent [suite1; suite2] world0 world0
             merged12 0 1 suite1 suite2 (skipped_case "Q") (passed "Q") "Q");
      first [ by vm_compute | in_list ].
  - apply (skip_override_order_independent [suite2; suite1] world0 world0
             merged21 1 0 suite1 suite2 (skipped_case "Q") (passed "Q") "Q");
      first [ by vm_compute | in_list ].
Defined.

(** A name completed in both reports is twice in the result. *)
Lemma exactly_once_counterexample :
  ∃ out w',
    merge_trees [suite [passed "X"]; suite [passed "X"]] world0
      = (inr out, w') ∧
    count_named "X" false (children (getroot out)) = 2.
Proof. eexists _, _. split; vm_compute; reflexivity. Defined.

Lemma merged_name_partition_witness :
  (count_named "Q" false (children (getroot merged12)) = 1 ∧
   count_named "Q" true (children (getroot merged12)) = 0) ∧
  (count_named "R" false (children (getroot merged12)) = 0 ∧
   count_named "R" true (children (getroot merged12)) = 1).
Proof.
  split.
  - apply (merged_name_partition suite1 suite2 [] world0 world0 merged12 "Q");
      [by vm_compute | vm_compute; lia].
  - apply (merged_name_partition suite1 suite2 [] world0 world0 merged12 "R");
      [by vm_compute | by vm_compute | vm_compute; lia].
Defined.

Lemma aggregate_consistency_witness :
  ∃ times : list float,
    attrib (getroot merged12) !! "tests" = Some (text_type_int 2) ∧
    attrib (getroot merged12) !! "skipped" = Some (text_type_int 1) ∧
    attrib (getroot merged12) !! "failures" = Some (text_type_int 0) ∧
    attrib (getroot merged12) !! "errors" = Some (text_type_int 0) ∧
    attrib (getroot merged12) !! "time" =
      Some (text_type_float (foldl float_add float_zero times)) ∧
    attrib (getroot merged12) !! "time" = Some "0.004" ∧
    2 + 1 = length (iter "testcase" (getroot merged12)) ∧
    Forall2 (λ c x, float_of_str (default "0" (attrib c !! "time")) = Some x)
      (iter "testcase" (getroot merged12)) times.
Proof.
  destruct (aggregate_consistency [suite1; suite2] world0 world0 merged12)
    as (t & s & f & e & times & Ht & Hs & Hf & He & Htime & Hsum & _ & _
        & Hcases); [simpl; lia | by vm_compute |].
  destruct Hcases as [Htimes _]; [by vm_compute|].
  assert (t = 2) as ->.
  { apply (inj text_type_int), (inj Some). rewrite <- Ht. by vm_compute. }
  assert (s = 1) as ->.
  { apply (inj text_type_int), (inj Some). rewrite <- Hs. by vm_compute. }
  assert (f = 0) as ->.
  { apply (inj text_type_int), (inj Some). rewrite <- Hf. by vm_compute. }
  assert (e = 0) as ->.
  { apply (inj text_type_int), (inj Some). rewrite <- He. by vm_compute. }
  exists times. repeat (split; [done|]). done.
Defined.


(** A [time] that is not a number ends the aggregation with [ValueError]. *)
Lemma unparsable_time_counterexample :
  float_of_str "abc" = None ∧
  test_suite_update_attribs (getroot (suite [testcase "T" "abc" []]))
    = inl (ValueError "abc").
Proof. split; vm_compute; reflexivity. Defined.

Lemma time_missing_or_unparsable_witness :
  (∃ st', update_state suite_state_init
            (Element "testcase" (<["name" := "T"]> ∅) None None []) = inr st' ∧
          time st' = float_add float_zero float_zero) ∧
  update_state suite_state_init (testcase "T" "abc" [])
    = inl (ValueError "abc").
Proof.
  split.
  - apply (time_missing_or_unparsable suite_state_init
             (Element "testcase" (<["name" := "T"]> ∅) None None [])).
    by vm_compute.
  - apply (time_missing_or_unparsable suite_state_init
             (testcase "T" "abc" [])); by vm_compute.
Defined.

(** Two of three completed cases of one name sit in the first report: one
    warning for three cases. *)
Lemma duplicate_warning_counterexample :
  ∃ out w',
    merge_trees [suite [passed "X"; passed "X"]; suite [passed "X"]] world0
      = (inr out, w') ∧
    count_named "X" false (children (getroot out)) = 3 ∧
    count_lines (duplication_warning "X") (stdout w') = 1.
Proof. eexists _, _. split; [|split]; vm_compute; reflexivity. Defined.

Lemma duplicates_kept_and_warned_witness :
  let first_tree := suite [passed "X"; passed "X"] in
  let second := suite [passed "X"] in
  let run := merge_trees [first_tree; second] world0 in
  passed "X" ∈ children (getroot (returned first_tree run)) ∧
  count_named "X" false (children (getroot (returned first_tree run))) = 3 ∧
  count_lines (duplication_warning "X") (stdout run.2) = 1.
Proof.
  intros first_tree second run.
  destruct (duplicates_kept_and_warned first_tree second [] world0 run.2
              (returned first_tree run) "X") as (Hin & Hcount & Hwarn);
    [by vm_compute|].
  split; [|split].
  - apply (Hin 1 second); first [ by vm_compute | in_list ].
  - rewrite Hcount. by vm_compute.
  - rewrite Hwarn. by vm_compute.
Defined.

Lemma aggregator_frame_witness :
  attrib (returned (getroot suite1)
            (test_suite_update_attribs (getroot suite1), world0)) !! "name"
  = Some "nosetests".
Proof.
  destruct (aggregator_frame (getroot suite1)
              (returned (getroot suite1)
                 (test_suite_update_attribs (getroot suite1), world0)))
    as (_ & _ & _ & _ & _ & Hother); [by vm_compute|].
  rewrite Hother; [by vm_compute|].
  rewrite !not_elem_of_cons. repeat split; try done. apply not_elem_of_nil.
Defined.

(** * Further properties of the module *)

(** ** Where the markers are looked for *)

(** X1. [is_test_state] walks [iter(state)], which starts at the element
    itself: for a tag name [state] (anything but the wildcard [*]) an
    element is in the state when it carries the tag itself or when an
    element anywhere below it does, at any depth. *)
Theorem marker_in_self_or_below (xml_element : element) (state : string) :
  state ≠ "*" →
  is_test_state xml_element state = true ↔
  tag xml_element = state ∨
  ∃ d, descendant d xml_element ∧ tag d = state.
Proof. intros _. apply is_test_state_spec. Qed.

(** ** When the aggregator raises *)

Section aggregator_errors.
Context `{PyFloat}.

Lemma test_time_inl test e :
  test_time test = inl e ↔
  ∃ v, attrib test !! "time" = Some v ∧ float_of_str v = None
       ∧ e = ValueError v.
Proof.
  unfold test_time. destruct (attrib test !! "time") as [v|] eqn:Hv; simpl.
  - destruct (float_of_str v) eqn:Hf.
    + split; [done|]. intros (v' & [= <-] & ? & _). congruence.
    + split.
      * intros [= <-]. by exists v.
      * intros (v' & [= <-] & _ & ->). done.
  - rewrite float_of_str_0. split; [done|]. by intros (v' & ? & _).
Qed.

Lemma update_state_result st test :
  match update_state st test with
  | inl e => test_time test = inl e
  | inr _ => ∃ t, test_time test = inr t
  end.
Proof.
  unfold update_state. destruct (test_time test) as [e|t]; simpl; [done|].
  by exists t.
Qed.

Lemma scan_cases_result cases st :
  match scan_cases cases st with
  | inl e =>
      ∃ l1 test l2, cases = l1 ++ test :: l2 ∧
        Forall (λ c, ∃ t, test_time c = inr t) l1 ∧ test_time test = inl e
  | inr _ => Forall (λ c, ∃ t, test_time c = inr t) cases
  end.
Proof.
  revert st. induction cases as [|c cases IH]; intros st; simpl; [done|].
  pose proof (update_state_result st c) as Hc.
  destruct (update_state st c) as [e|st1]; simpl.
  - exists [], c, cases. by repeat split.
  - specialize (IH st1). destruct (scan_cases cases st1) as [e|st2].
    + destruct IH as (l1 & test & l2 & -> & Hl1 & He).
      exists (c :: l1), test, l2. split; [done|]. split; [|done].
      by constructor.
    + by constructor.
Qed.

(** X2. The aggregator raises exactly when some [testcase] element of the
    suite carries a [time] that [float] cannot read; the exception is the
    [ValueError] of the first such element in document order, and every
    element before it has a readable (or no) [time]. *)
Theorem aggregator_raises_on_first_bad_time (test_suite : element) (e : exn) :
  test_suite_update_attribs test_suite = inl e ↔
  ∃ l1 test l2 v,
    iter "testcase" test_suite = l1 ++ test :: l2 ∧
    Forall (λ c, ∃ t, test_time c = inr t) l1 ∧
    attrib test !! "time" = Some v ∧ float_of_str v = None ∧
    e = ValueError v.
Proof.
  unfold test_suite_update_attribs.
  pose proof (scan_cases_result (iter "testcase" test_suite) suite_state_init)
    as Hscan.
  destruct (scan_cases _ _) as [e'|st]; simpl; split.
  - intros [= <-]. destruct Hscan as (l1 & test & l2 & Heq & Hl1 & He).
    apply test_time_inl in He as (v & Hv & Hf & ->).
    by exists l1, test, l2, v.
  - intros (l1 & test & l2 & v & Heq & Hl1 & Hv & Hf & ->).
    destruct Hscan as (l1' & test' & l2' & Heq' & Hl1' & He').
    assert (test_time test = inl (ValueError v)) as He
      by (apply test_time_inl; by exists v).
    rewrite Heq in Heq'.
    assert (l1 = l1' ∧ test = test') as [-> ->].
    { clear -Heq' Hl1 Hl1' He He'. revert l1' Heq' Hl1'.
      induction Hl1 as [|c l1 [t Hc] Hl1 IH]; intros l1' Heq' Hl1'.
      - destruct l1' as [|c' l1']; simplify_eq/=; [done|].
        apply Forall_cons in Hl1' as [[t Ht] _]. congruence.
      - destruct l1' as [|c' l1']; simplify_eq/=; [congruence|].
        apply Forall_cons in Hl1' as [_ Hl1'].
        match goal with
        | Hl : l1 ++ _ = l1' ++ _ |- _ =>
            by destruct (IH _ Hl Hl1') as [-> ->]
        end. }
    congruence.
  - done.
  - intros (l1 & test & l2 & v & Heq & _ & Hv & Hf & _).
    rewrite Heq in Hscan. apply Forall_app in Hscan as [_ Hscan].
    apply Forall_cons in Hscan as [[t Ht] _].
    assert (test_time test = inl (ValueError v)) as He
      by (apply test_time_inl; by exists v).
    congruence.
Qed.

(** The five writes of [write_state] overwrite what an earlier run wrote. *)
Lemma write_state_twice st test_suite :
  write_state st (write_state st test_suite) = write_state st test_suite.
Proof.
  destruct test_suite as [tg a x tl cs]. unfold write_state, set. f_equal.
  apply map_eq. intros k. rewrite !lookup_insert.
  repeat case_decide; done.
Qed.

(** X3. Running the aggregator on its own result changes nothing, for a
    suite whose root is not itself tagged [testcase] (the root's [time] is
    overwritten by the sum, so a root that is scanned as a test case would
    be read differently the second time). *)
Theorem aggregator_idempotent (test_suite out : element) :
  tag test_suite ≠ "testcase" →
  test_suite_update_attribs test_suite = inr out →
  test_suite_update_attribs out = inr out.
Proof.
  intros Ht Hrun. destruct (update_attribs_inr _ _ Hrun) as (st & Hscan & ->).
  destruct (write_state_shape st test_suite) as (Htag & _ & _ & Hch & _).
  destruct (iter_same_shape "testcase" _ _ Htag Hch) as [_ Hiter].
  unfold test_suite_update_attribs. rewrite (Hiter Ht), Hscan. simpl.
  by rewrite write_state_twice.
Qed.

End aggregator_errors.

(** ** When the merge raises *)





Section merge_errors.
Context `{PyFloat}.



(** X5. The children of a merge of two or more trees, in order: the
    children of the first root without its skipped test cases, then the
    completed children of the later roots in input order, then skipped cases
    of the inputs, one per name at most.  Every child of the result was a
    child of an input root. *)
Theorem merge_children_order
    (first_tree second : ElementTree) (others : list ElementTree)
    (w w' : world) (out : ElementTree) :
  merge_trees (first_tree :: second :: others) w = (inr out, w') →
  ∃ survivors,
    children (getroot out) =
      filter (λ c, ¬ (tag c = "testcase" ∧ is_test_skipped c = true))
        (children (getroot first_tree))
      ++ filter (λ c, is_test_skipped c = false)
           (later_cases (second :: others))
      ++ survivors ∧
    NoDup (case_name <$> survivors) ∧
    ∀ c, c ∈ survivors →
         is_test_skipped c = true ∧
         c ∈ later_cases (first_tree :: second :: others).
Proof.
  intros Hrun.
  destruct (merge_trees_inr _ _ _ _ _ _ Hrun) as (st & Hinv & Hch & _).
  destruct Hinv as (_ & Hnd & Hent & _).
  set (d := filter (λ kv, kv.1 ∉ completed_tests st) (skipped_tests st))
    in *.
  assert (∀ k e, (k, e) ∈ d → (k, e) ∈ skipped_tests st) as Hd.
  { intros k e Hin. apply list_elem_of_filter in Hin. tauto. }
  exists d.*2. split; [done|]. split.
  - assert (case_name <$> d.*2 = Some <$> d.*1) as ->.
    { rewrite <- !list_fmap_compose. apply Forall_fmap_ext_1.
      apply Forall_forall.
      intros [k e] Hin. apply Hd, Hent in Hin as [_ [Hn _]]. done. }
    apply NoDup_fmap_2; [apply _|].
    eapply sublist_NoDup; [exact Hnd|].
    apply (fmap_sublist fst), sublist_filter.
  - intros c Hc. apply list_elem_of_fmap in Hc as ([k e] & -> & Hin).
    apply Hd, Hent in Hin as [Hseen [_ Hs]]. split; [done|]. simpl.
    change (later_cases (first_tree :: second :: others))
      with (children (getroot first_tree) ++ later_cases (second :: others)).
    apply elem_of_app in Hseen as [Hin | Hin]; apply elem_of_app.
    + left. unfold findall in Hin. apply list_elem_of_filter in Hin. tauto.
    + by right.
Qed.

(** X6. The root of a merge of two or more trees is the first root with
    new children and the five aggregate attributes: its tag, text, tail and
    every other attribute are those of the first root.  Nothing of a later
    root itself reaches the result. *)
Theorem merge_root_frame
    (first_tree second : ElementTree) (others : list ElementTree)
    (w w' : world) (out : ElementTree) :
  merge_trees (first_tree :: second :: others) w = (inr out, w') →
  tag (getroot out) = tag (getroot first_tree) ∧
  text (getroot out) = text (getroot first_tree) ∧
  tail (getroot out) = tail (getroot first_tree) ∧
  ∀ k, k ∉ ["tests"; "skipped"; "failures"; "errors"; "time"] →
       attrib (getroot out) !! k = attrib (getroot first_tree) !! k.
Proof.
  intros Hrun.
  destruct (merge_trees_inr _ _ _ _ _ _ Hrun) as (_ & _ & _ & Hu & _).
  destruct (update_attribs_inr _ _ Hu) as (st & _ & Hout).
  destruct (write_state_shape st
              (set_children (children (getroot out)) (getroot first_tree)))
    as (Htag & Htext & Htail & _ & Hattr).
  rewrite <- Hout in Htag, Htext, Htail, Hattr.
  rewrite Htag, Htext, Htail, Hattr.
  destruct (getroot first_tree) as [tg a x tl cs]. simpl.
  repeat (split; [done|]).
  intros k Hk. rewrite !not_elem_of_cons in Hk.
  destruct Hk as (? & ? & ? & ? & ? & _).
  by rewrite !lookup_insert_ne.
Qed.

End merge_errors.

(** ** What a merge prints and what it leaves alone *)

Lemma merge_child_world st test w :
  let w' := (merge_child st test w).2 in
  etree_serialize_xml w' = etree_serialize_xml w ∧
  etree_serialize w' = etree_serialize w ∧
  written w' = written w ∧
  ∃ names, stdout w' = stdout w ++ (duplication_warning <$> names).
Proof.
  unfold merge_child, test_get_name.
  destruct (attrib test !! "name") as [n|]; unfold_M;
    [|repeat split; exists []; by rewrite app_nil_r].
  destruct (is_test_skipped test).
  { destruct (negb _ && negb _); simpl; repeat split; exists [];
      by rewrite app_nil_r. }
  assert (∀ d, dict_mem n (filter (λ kv, kv.1 ≠ n) d) = false) as Hgone.
  { intros d. apply dict_mem_false. rewrite dict_drop_keys.
    rewrite list_elem_of_filter. tauto. }
  destruct (dict_mem n (skipped_tests st)) eqn:Hs.
  - destruct (dict_del_mem _ _ Hs) as [d Hdel]. rewrite Hdel.
    pose proof (dict_del_inr _ _ _ Hdel) as ->. rewrite Hgone.
    destruct (list_mem n (completed_tests st)); simpl; repeat split.
    + by exists [n].
    + exists []. by rewrite app_nil_r.
  - destruct (list_mem n (completed_tests st)); simpl; repeat split.
    + by exists [n].
    + exists []. by rewrite app_nil_r.
Qed.

Lemma merge_children_world cs st w :
  let w' := (foldM merge_child cs st w).2 in
  etree_serialize_xml w' = etree_serialize_xml w ∧
  etree_serialize w' = etree_serialize w ∧
  written w' = written w ∧
  ∃ names, stdout w' = stdout w ++ (duplication_warning <$> names).
Proof.
  revert st w. induction cs as [|c cs IH]; intros st w; simpl.
  - unfold_M. repeat split. exists []. by rewrite app_nil_r.
  - unfold_M.
    destruct (merge_child_world st c w) as (H1 & H2 & H3 & names1 & H4).
    destruct (merge_child st c w) as [[e|st1] w1]; simpl in *.
    + repeat split; try done. by exists names1.
    + destruct (IH st1 w1) as (H1' & H2' & H3' & names2 & H4').
      rewrite H1', H2', H3', H4', H1, H2, H3, H4.
      repeat split. exists (names1 ++ names2).
      by rewrite fmap_app, app_assoc.
Qed.

Section merge_effects.
Context `{PyFloat}.

(** X7. Whatever the trees and however the merge ends, it leaves
    ElementTree's serializer and the output alone, and all it prints are
    duplication warnings: the [not removed?] line is never printed. *)
Theorem merge_prints_only_warnings (trees : list ElementTree) (w : world) :
  let w' := (merge_trees trees w).2 in
  etree_serialize_xml w' = etree_serialize_xml w ∧
  etree_serialize w' = etree_serialize w ∧
  written w' = written w ∧
  ∃ names, stdout w' = stdout w ++ (duplication_warning <$> names).
Proof.
  assert (etree_serialize_xml w = etree_serialize_xml w ∧
          etree_serialize w = etree_serialize w ∧
          written w = written w ∧
          ∃ names, stdout w = stdout w ++ (duplication_warning <$> names))
    as Hsame by (repeat split; exists []; by rewrite app_nil_r).
  destruct trees as [|first_tree [|second others]]; [done | done |].
  unfold merge_trees. rewrite decide_False by (simpl; lia).
  generalize (second :: others). intros rest. unfold_M.
  destruct (partition_first _ _) as [e|st1]; [done|].
  rewrite foldM_merge_tree.
  pose proof (merge_children_world (later_cases rest) st1 w) as Hw.
  destruct (foldM merge_child _ st1 w) as [[e|st2] w2]; [done|].
  destruct (add_skipped _ _) as [e|cs]; [done|].
  by destruct (test_suite_update_attribs _).
Qed.


(** X9. The order of the inputs does not change how many completed cases of
    a name the result has: two merges of the same trees in different orders
    agree on that number for every name. *)
Theorem completed_count_order_independent
    (trees trees' : list ElementTree) (w1 w1' w2 w2' : world)
    (out out' : ElementTree) (X : string) :
  trees ≡ₚ trees' →
  merge_trees trees w1 = (inr out, w1') →
  merge_trees trees' w2 = (inr out', w2') →
  count_named X false (children (getroot out)) =
  count_named X false (children (getroot out')).
Proof.
  assert (∀ l v u o, merge_trees l v = (inr o, u) →
            count_named X false (children (getroot o)) =
            count_named X false (later_cases l)) as Hcount.
  { intros [|t [|t2 l]] v u o Hrun; [done | |].
    - injection Hrun as <- <-. unfold later_cases. simpl.
      by rewrite app_nil_r.
    - destruct (merge_trees_counts _ _ _ _ _ _ X Hrun) as [-> _].
      change (later_cases (t :: t2 :: l))
        with (children (getroot t) ++ later_cases (t2 :: l)).
      rewrite !count_named_app.
      rewrite <- (count_named_perm X false _ _
                    (filter_app_complement (λ c, tag c = "testcase")
                       (children (getroot t)))).
      rewrite count_named_app. unfold untouched, findall. lia. }
  intros Hperm Hrun Hrun'.
  rewrite (Hcount _ _ _ _ Hrun), (Hcount _ _ _ _ Hrun').
  apply count_named_perm. unfold later_cases. by rewrite Hperm.
Qed.

End merge_effects.

(** ** Serializer and orchestrator *)

Lemma parse_all_good trees acc w :
  parse_all (inr <$> trees) acc w = (inr (acc ++ trees), w).
Proof.
  revert acc. induction trees as [|t trees IH]; intros acc; simpl.
  - unfold_M. by rewrite app_nil_r.
  - unfold_M. unfold parse, lift. rewrite IH. by rewrite <- app_assoc.
Qed.

Lemma parse_all_bad good e more acc w :
  parse_all ((inr <$> good) ++ inl e :: more) acc w = (inl e, w).
Proof.
  revert acc. induction good as [|t good IH]; intros acc; simpl.
  - by unfold_M.
  - unfold_M. unfold parse, lift. by rewrite IH.
Qed.

Lemma cdata_free_inv e :
  cdata_free e → (tag e ∉ CNAME_TAGS) ∧ Forall cdata_free (children e).
Proof.
  intros Hfree. split.
  - intros Hin. pose proof (iter_self e) as Hself.
    rewrite (Hfree _ Hin) in Hself. by apply elem_of_nil in Hself.
  - apply Forall_forall. intros c Hc t Ht.
    destruct (iter t c) as [|x l] eqn:Hiter; [done|].
    assert (x ∈ iter t e) as Hx
      by (apply (iter_child t c); [done | rewrite Hiter; left]).
    rewrite (Hfree _ Ht) in Hx. by apply elem_of_nil in Hx.
Qed.

Section cdata_free_facts.
Context `{StdSerializer}.

(** Without an element of the four tags the closure never writes itself:
    whatever is installed, the library's function alone writes the tree. *)
Lemma cdata_free_run e :
  cdata_free e →
  ∀ global s,
    run_serializer global e s
    = run_serializer StdSerializeXml e StdSerializeXml.
Proof.
  induction e as [tg a x tl cs IH] using element_ind'.
  intros Hfree global s.
  destruct (cdata_free_inv _ Hfree) as [Htag Hkids]. simpl in Htag, Hkids.
  rewrite (run_serializer_same_kids StdSerializeXml global).
  - induction s as [|s IHs]; [done|].
    by rewrite run_serializer_other.
  - simpl. apply Forall_forall. intros c Hc.
    rewrite Forall_forall in IH. rewrite Forall_forall in Hkids.
    exact (IH c Hc (Hkids c Hc) global global).
Qed.

End cdata_free_facts.

Section orchestrator_facts.
Context `{PyFloat} `{StdSerializer}.

(** X10. For an element of the four tags that has a text, the patched
    serializer hands to [write]: the opening tag with the items of the
    attribute dictionary, each once, in the order of their keys, each value
    through [quoteattr]; the text as it is between the CDATA delimiters; the
    closing tag.  The children and the tail of the element do not appear. *)
Theorem cdata_with_text (global original : serializer)
    (tg : string) (a : gmap string string) (t : string)
    (tl : option string) (cs : list element) :
  tg ∈ CNAME_TAGS →
  ∃ items,
    items ≡ₚ map_to_list a ∧
    StronglySorted (λ x y, String.le x.1 y.1) items ∧
    run_serializer global (Element tg a (Some t) tl cs)
      (CnameSerializeXml original) =
    "<" +:+ tg
    +:+ concat_strings
          ((λ kv, " " +:+ kv.1 +:+ "=" +:+ quoteattr kv.2) <$> items)
    +:+ ">" +:+ "<![CDATA[" +:+ t +:+ "]]>" +:+ "</" +:+ tg +:+ ">".
Proof.
  intros Ht. exists (sorted_items a).
  destruct (sorted_items_spec a) as (Hperm & Hsorted & _).
  split; [done|]. split; [done|]. by apply cname_serialization.
Qed.

(** X11. A [with patch_etree_cname] block around the write of a tree
    without elements of the four tags, when the write ends normally, has
    written the declaration and then what the library's own function writes
    for the root, and leaves in both [etree._serialize_xml] and
    [etree._serialize['xml']] the function that [etree._serialize_xml] held
    on entry (the dictionary entry is not saved on its own). *)
Theorem patch_restores_what_it_found
    (tree : ElementTree) (output : sink) (w w' : world) :
  cdata_free (getroot tree) →
  patch_etree_cname (tree_write tree output) w = (inr (), w') →
  etree_serialize_xml w' = etree_serialize_xml w ∧
  etree_serialize w' = etree_serialize_xml w ∧
  stdout w' = stdout w ∧
  written w' =
    written w
    ++ [xml_declaration;
        run_serializer StdSerializeXml (getroot tree) StdSerializeXml].
Proof.
  intros Hfree.
  unfold patch_etree_cname, tree_write, sink_write, get_world. unfold_M.
  destruct (writable output); [|done].
  intros [= <-]. simpl. repeat split.
  by rewrite <- app_assoc, (cdata_free_run _ Hfree).
Qed.

(** X12. [merge_xunit] stops at the first input that does not parse, with
    the parser's exception: nothing is merged, printed or written, and the
    serializer is not patched. *)
Theorem merge_xunit_stops_at_bad_input
    (good : list ElementTree) (e : exn) (more : list source) (output : sink)
    (callback : option (ElementTree → M (ElementTree * option ElementTree)))
    (w : world) :
  merge_xunit ((inr <$> good) ++ inl e :: more) output callback w
  = (inl e, w).
Proof.
  unfold merge_xunit. unfold_M. by rewrite parse_all_bad.
Qed.

(** X13. When every input parses, the merge returns and the callback (if
    any) returns, the tree to write is the one the callback returned or,
    when there is no callback or it returned [None], the merged tree as the
    callback left it.  If that tree has no element of the four tags,
    [merge_xunit] on an output that accepts the data writes the declaration
    and then what the library's own function writes for its root, and both
    serializer hooks hold afterwards what [etree._serialize_xml] held before
    the write. *)
Theorem merge_xunit_writes
    (trees : list ElementTree) (w w1 w2 : world) (merged changed : ElementTree)
    (callback : option (ElementTree → M (ElementTree * option ElementTree)))
    (r : option ElementTree) :
  merge_trees trees w = (inr merged, w1) →
  match callback with
  | Some cb => cb merged w1
  | None => (inr (merged, None), w1)
  end = (inr (changed, r), w2) →
  cdata_free (getroot (default changed r)) →
  merge_xunit (inr <$> trees) (mkSink true) callback w =
  (inr (),
   {| stdout := stdout w2;
      etree_serialize_xml := etree_serialize_xml w2;
      etree_serialize := etree_serialize_xml w2;
      written :=
        written w2
        ++ [xml_declaration;
            run_serializer StdSerializeXml (getroot (default changed r))
              StdSerializeXml] |}).
Proof.
  intros Hmerge Hcb Hfree. unfold merge_xunit. unfold_M.
  rewrite parse_all_good. simpl. rewrite Hmerge.
  destruct callback as [cb|].
  - rewrite Hcb.
    unfold patch_etree_cname, tree_write, sink_write, get_world. unfold_M.
    by rewrite <- app_assoc, (cdata_free_run _ Hfree).
  - injection Hcb as <- <- <-.
    unfold patch_etree_cname, tree_write, sink_write, get_world. unfold_M.
    by rewrite <- app_assoc, (cdata_free_run _ Hfree).
Qed.

(** X14. An exception of the merge ends [merge_xunit] with that exception
    and the state the merge left: nothing is written and the serializer is
    not patched.  The same holds for an exception of the callback. *)
Theorem merge_xunit_propagates
    (trees : list ElementTree) (output : sink)
    (callback : option (ElementTree → M (ElementTree * option ElementTree)))
    (w w1 : world) (e : exn) :
  (merge_trees trees w = (inl e, w1) →
   merge_xunit (inr <$> trees) output callback w = (inl e, w1)) ∧
  (∀ cb merged w2,
     callback = Some cb →
     merge_trees trees w = (inr merged, w1) →
     cb merged w1 = (inl e, w2) →
     merge_xunit (inr <$> trees) output callback w = (inl e, w2)).
Proof.
  split.
  - intros Hmerge. unfold merge_xunit. unfold_M.
    rewrite parse_all_good. simpl. by rewrite Hmerge.
  - intros cb merged w2 -> Hmerge Hcb. unfold merge_xunit. unfold_M.
    rewrite parse_all_good. simpl. by rewrite Hmerge, Hcb.
Qed.

End orchestrator_facts.

(** ** Which skipped case survives *)

Lemma skips_inv_extend seen st st' c :
  skips_inv seen st → skipped_tests st' = skipped_tests st →
  skips_inv (seen ++ [c]) st'.
Proof.
  intros [Hsub Hfirst] Hs. unfold skips_inv. rewrite Hs. split.
  - by apply sublist_inserts_r.
  - intros k e Hin. destruct (Hfirst _ _ Hin) as (l1 & l2 & -> & Hl1).
    exists l1, (l2 ++ [c]). split; [by rewrite <- app_assoc | done].
Qed.

Lemma skips_inv_add seen st st' n test :
  skips_inv seen st →
  skipped_tests st' = skipped_tests st ++ [(n, test)] →
  (∀ c, c ∈ seen → ¬ named n true c) →
  skips_inv (seen ++ [test]) st'.
Proof.
  intros [Hsub Hfirst] Hs Hnew. unfold skips_inv. rewrite Hs. split.
  - rewrite fmap_app. by apply sublist_app.
  - intros k e [Hin | Hin%list_elem_of_singleton]%elem_of_app.
    + destruct (Hfirst _ _ Hin) as (l1 & l2 & -> & Hl1).
      exists l1, (l2 ++ [test]). split; [by rewrite <- app_assoc | done].
    + injection Hin as -> ->. by exists seen, [].
Qed.

Lemma skips_inv_drop seen st st' n test :
  skips_inv seen st →
  skipped_tests st' = filter (λ kv, kv.1 ≠ n) (skipped_tests st) →
  skips_inv (seen ++ [test]) st'.
Proof.
  intros [Hsub Hfirst] Hs. unfold skips_inv. rewrite Hs. split.
  - apply sublist_inserts_r. etrans; [|exact Hsub].
    apply (fmap_sublist snd), sublist_filter.
  - intros k e Hin. apply list_elem_of_filter in Hin as [_ Hin].
    destruct (Hfirst _ _ Hin) as (l1 & l2 & -> & Hl1).
    exists l1, (l2 ++ [test]). split; [by rewrite <- app_assoc | done].
Qed.

Lemma partition_first_skips cs seen st st' :
  partition_first cs st = inr st' →
  skips_inv seen st → skips_kept seen st →
  skips_inv (seen ++ filter (λ c, tag c = "testcase") cs) st' ∧
  skips_kept (seen ++ filter (λ c, tag c = "testcase") cs) st'.
Proof.
  revert seen st. induction cs as [|c cs IH]; intros seen st; simpl.
  - intros [= <-]. by rewrite !app_nil_r.
  - unfold_M. destruct (partition_child st c) as [e|st1] eqn:Hc; [done|].
    intros Hrest Hinv Hkept.
    assert (skips_inv (seen ++ filter (λ c, tag c = "testcase") [c]) st1 ∧
            skips_kept (seen ++ filter (λ c, tag c = "testcase") [c]) st1)
      as [Hinv1 Hkept1].
    { apply partition_child_inr in Hc.
      destruct (decide (tag c = "testcase")) as [Ht | Ht].
      - rewrite (filter_cons_True (λ c, tag c = "testcase")) by done.
        rewrite filter_nil. destruct Hc as (n & Hn & Hc).
        destruct (is_test_skipped c) eqn:Hsk.
        + destruct Hc as (_ & _ & Hs).
          destruct (decide (n ∉ (skipped_tests st).*1)) as [Hnew | Hold].
          * split.
            -- apply (skips_inv_add seen st st1 n c); [done | done |].
               intros c' Hin Hc'. apply Hnew. by eapply Hkept.
            -- intros X c' Hin Hc'. rewrite Hs, fmap_app.
               apply elem_of_app in Hin as [Hin | ->%list_elem_of_singleton].
               ++ apply elem_of_app. left. by eapply Hkept.
               ++ assert (X = n) as -> by (destruct Hc'; congruence).
                  set_solver.
          * split; [by apply (skips_inv_extend seen st st1 c)|].
            intros X c' Hin Hc'. rewrite Hs.
            apply elem_of_app in Hin as [Hin | ->%list_elem_of_singleton].
            -- by eapply Hkept.
            -- assert (X = n) as -> by (destruct Hc'; congruence).
               by destruct (decide (n ∈ (skipped_tests st).*1)).
        + destruct Hc as (_ & Hs & _). split.
          * by apply (skips_inv_extend seen st st1 c).
          * intros X c' Hin Hc'. rewrite Hs.
            apply elem_of_app in Hin as [Hin | ->%list_elem_of_singleton].
            -- by eapply Hkept.
            -- destruct Hc'. congruence.
      - rewrite (filter_cons_False (λ c, tag c = "testcase")) by done.
        rewrite filter_nil, app_nil_r. destruct Hc as (_ & Hs & _).
        unfold skips_inv, skips_kept. by rewrite Hs. }
    destruct (IH _ _ Hrest Hinv1 Hkept1) as [Hinv' Hkept'].
    change (c :: cs) with ([c] ++ cs). rewrite filter_app, app_assoc.
    done.
Qed.

Lemma merge_children_skips cs seen st w st' w' :
  foldM merge_child cs st w = (inr st', w') →
  tables_inv seen st → skips_inv seen st →
  skips_inv (seen ++ cs) st'.
Proof.
  revert seen st w. induction cs as [|c cs IH]; intros seen st w; simpl.
  - unfold_M. intros [= <- <-]. by rewrite app_nil_r.
  - unfold_M. destruct (merge_child st c w) as [[e|st1] w1] eqn:Hc; [done|].
    intros Hrest Htab Hinv.
    destruct (merge_child_inv _ _ _ _ _ _ Htab Hc) as [Htab1 _].
    assert (skips_inv (seen ++ [c]) st1) as Hinv1.
    { apply merge_child_inr in Hc as (n & Hn & Hc).
      destruct (is_test_skipped c) eqn:Hsk.
      - destruct Hc as (_ & _ & _ & Hs).
        destruct (decide ((n ∉ completed_tests st)
                          ∧ (n ∉ (skipped_tests st).*1))) as [[Hn1 Hn2] | _].
        + apply (skips_inv_add seen st st1 n c); [done | done |].
          intros c' Hin Hc'. apply Hn2.
          destruct Htab as (_ & _ & _ & Hskip). by eapply Hskip.
        + by apply (skips_inv_extend seen st st1 c).
      - destruct Hc as (_ & Hs & _).
        by apply (skips_inv_drop seen st st1 n c). }
    specialize (IH _ _ _ Hrest Htab1 Hinv1). by rewrite <- app_assoc in IH.
Qed.

Section survivors.
Context `{PyFloat}.

(** X15. The skipped cases that a merge of two or more trees puts back
    come in the order of the inputs, and each is the first skipped case of
    its name among the cases of the inputs (the children tagged [testcase]
    of the first root, then the children of the later roots). *)
Theorem first_skipped_case_survives
    (first_tree second : ElementTree) (others : list ElementTree)
    (w w' : world) (out : ElementTree) :
  merge_trees (first_tree :: second :: others) w = (inr out, w') →
  let cases := findall "testcase" (getroot first_tree)
               ++ later_cases (second :: others) in
  ∃ survivors,
    children (getroot out) =
      filter (λ c, ¬ (tag c = "testcase" ∧ is_test_skipped c = true))
        (children (getroot first_tree))
      ++ filter (λ c, is_test_skipped c = false)
           (later_cases (second :: others))
      ++ survivors ∧
    survivors `sublist_of` cases ∧
    ∀ c, c ∈ survivors →
         ∃ X l1 l2, named X true c ∧ cases = l1 ++ c :: l2 ∧
                    ∀ c', c' ∈ l1 → ¬ named X true c'.
Proof.
  unfold merge_trees. rewrite decide_False by (simpl; lia).
  generalize (second :: others). intros rest. unfold_M.
  destruct (partition_first _ _) as [e|st1] eqn:Hp; [done|].
  rewrite foldM_merge_tree.
  destruct (foldM merge_child _ st1 w) as [[e|st2] w2] eqn:Hm; [done|].
  destruct (partition_first_inv _ _ _ _ tables_inv_nil Hp) as [Htab1 Hf1].
  destruct (merge_children_inv _ _ _ _ _ _ Htab1 Hm) as (Htab2 & Hf2 & _).
  assert (skips_inv [] {| first_children := []; skipped_tests := [];
                          completed_tests := [] |}) as Hinv0.
  { split; [done|]. by intros k e ?%elem_of_nil. }
  assert (skips_kept [] {| first_children := []; skipped_tests := [];
                           completed_tests := [] |}) as Hkept0
    by (by intros X c ?%elem_of_nil).
  destruct (partition_first_skips _ _ _ _ Hp Hinv0 Hkept0) as [Hinv1 _].
  pose proof (merge_children_skips _ _ _ _ _ _ Hm Htab1 Hinv1)
    as [Hsub Hfirst].
  simpl in Hf1, Htab2, Hsub, Hfirst.
  rewrite (add_skipped_spec (skipped_tests st2) st2);
    [| by destruct Htab2 as (_ & ? & _) | done].
  destruct (test_suite_update_attribs _) as [e|root] eqn:Hu; [done|].
  intros [= <- <-]. simpl.
  destruct (update_attribs_inr _ _ Hu) as (sst & _ & ->).
  destruct (write_state_shape sst
              (set_children
                 (first_children st2 ++
                  (filter (λ kv, kv.1 ∉ completed_tests st2)
                     (skipped_tests st2)).*2)
                 (getroot first_tree))) as (_ & _ & _ & -> & _).
  assert (∀ cs e, children (set_children cs e) = cs) as ->
    by (by intros ? []).
  set (d := filter (λ kv, kv.1 ∉ completed_tests st2) (skipped_tests st2)).
  exists d.*2. split; [by rewrite Hf2, Hf1, app_assoc|]. split.
  - etrans; [|exact Hsub]. apply (fmap_sublist snd), sublist_filter.
  - intros c Hc. apply list_elem_of_fmap in Hc as ([k e] & -> & Hin).
    apply list_elem_of_filter in Hin as [_ Hin]. simpl.
    destruct (Hfirst _ _ Hin) as (l1 & l2 & Heq & Hl1).
    destruct Htab2 as (_ & _ & Hent & _).
    destruct (Hent _ _ Hin) as [_ Hn].
    by exists k, l1, l2.
Qed.

End survivors.

(** ** When the merge returns *)


Section merge_returns.
Context `{PyFloat}.



End merge_returns.

(** ** Edge cases of the orchestrator and of the patch *)

Section patch_facts.
Context `{PyFloat} `{StdSerializer}.

(** X17. Without input files [merge_xunit] raises [IndexError] (from
    [trees[0]]) before anything is written or patched. *)
Theorem merge_xunit_no_files (output : sink)
    (callback : option (ElementTree → M (ElementTree * option ElementTree)))
    (w : world) :
  merge_xunit [] output callback w = (inl IndexError, w).
Proof. reflexivity. Qed.

(** X18. A patch installed on top of a patch (as after a failed write has
    left one behind) writes what a single patch writes, for every element
    and at every depth. *)
Theorem nested_patch_writes_the_same (original : serializer) (elem : element) :
  run_serializer (CnameSerializeXml (CnameSerializeXml original)) elem
    (CnameSerializeXml (CnameSerializeXml original))
  = run_serializer (CnameSerializeXml original) elem
      (CnameSerializeXml original).
Proof.
  induction elem as [tg a x tl cs IH] using element_ind'.
  rewrite (run_serializer_same_kids (CnameSerializeXml original)
             (CnameSerializeXml (CnameSerializeXml original))
             (Element tg a x tl cs) IH).
  simpl. by destruct (bool_decide (tg ∈ CNAME_TAGS)).
Qed.

End patch_facts.

(** ** The further properties on the end-to-end scenario *)

Ltac each_elem H :=
  repeat (apply elem_of_cons in H as [-> | H]);
  [.. | by apply elem_of_nil in H].

Lemma marker_in_self_or_below_witness :
  tag (skipped_case "Q") = "skipped" ∨
  ∃ d, descendant d (skipped_case "Q") ∧ tag d = "skipped".
Proof.
  apply (marker_in_self_or_below (skipped_case "Q") "skipped");
    by vm_compute.
Defined.

Lemma aggregator_idempotent_witness :
  let out := returned (getroot suite1)
               (test_suite_update_attribs (getroot suite1), world0) in
  test_suite_update_attribs out = inr out.
Proof.
  apply (aggregator_idempotent (getroot suite1)); by vm_compute.
Defined.

Lemma merge_children_order_witness :
  ∃ survivors,
    children (getroot merged12) =
      filter (λ c, ¬ (tag c = "testcase" ∧ is_test_skipped c = true))
        (children (getroot suite1))
      ++ filter (λ c, is_test_skipped c = false) (later_cases [suite2])
      ++ survivors ∧
    NoDup (case_name <$> survivors) ∧
    ∀ c, c ∈ survivors →
         is_test_skipped c = true ∧ c ∈ later_cases [suite1; suite2].
Proof.
  apply (merge_children_order suite1 suite2 [] world0 world0 merged12).
  by vm_compute.
Defined.

Lemma merge_root_frame_witness :
  attrib (getroot merged12) !! "name" = attrib (getroot suite1) !! "name".
Proof.
  destruct (merge_root_frame suite1 suite2 [] world0 world0 merged12)
    as (_ & _ & _ & Hother); [by vm_compute|].
  apply Hother. rewrite !not_elem_of_cons.
  repeat split; try done. apply not_elem_of_nil.
Defined.


Lemma completed_count_order_independent_witness :
  count_named "Q" false (children (getroot merged12)) =
  count_named "Q" false (children (getroot merged21)).
Proof.
  apply (completed_count_order_independent [suite1; suite2] [suite2; suite1]
           world0 world0 world0 world0);
    [apply perm_swap | by vm_compute | by vm_compute].
Defined.

(** The [skipped] element of the module's doctest. *)
Lemma cdata_with_text_witness :
  ∃ items,
    items ≡ₚ map_to_list
               (<["type" := "unittest.case.SkipTest"]>
                  (<["message" := "Skipped"]> ∅)) ∧
    StronglySorted (λ x y, String.le x.1 y.1) items ∧
    run_serializer StdSerializeXml
      (Element "skipped"
         (<["type" := "unittest.case.SkipTest"]>
            (<["message" := "Skipped"]> ∅))
         (Some "Skipped") None [])
      (CnameSerializeXml StdSerializeXml) =
    "<" +:+ "skipped"
    +:+ concat_strings
          ((λ kv, " " +:+ kv.1 +:+ "=" +:+ quoteattr kv.2) <$> items)
    +:+ ">" +:+ "<![CDATA[" +:+ "Skipped" +:+ "]]>" +:+ "</" +:+ "skipped"
    +:+ ">".
Proof. apply cdata_with_text. in_list. Defined.

Lemma patch_restores_what_it_found_witness :
  let tree := suite [passed "P"] in
  let w' := (patch_etree_cname (tree_write tree (mkSink true)) world0).2 in
  etree_serialize_xml w' = StdSerializeXml ∧
  etree_serialize w' = StdSerializeXml ∧
  written w' =
    [xml_declaration;
     run_serializer StdSerializeXml (getroot tree) StdSerializeXml].
Proof.
  intros tree w'.
  destruct (patch_restores_what_it_found tree (mkSink true) world0 w')
    as (Hxml & Htable & _ & Hwritten).
  - intros t Ht. unfold CNAME_TAGS in Ht. each_elem Ht; by vm_compute.
  - by vm_compute.
  - by repeat split.
Defined.

(** Two reports of passing tests and a callback that renames the merged
    suite in place and returns nothing. *)
Lemma merge_xunit_writes_witness :
  let trees := [suite [passed "P"]; suite [passed "Q"]] in
  let rename (t : ElementTree) : M (ElementTree * option ElementTree) :=
    mret (mkTree (set "name" "merged" (getroot t)), None) in
  let merged := returned (suite []) (merge_trees trees world0) in
  written (merge_xunit (inr <$> trees) (mkSink true) (Some rename) world0).2
  = [xml_declaration;
     run_serializer StdSerializeXml (set "name" "merged" (getroot merged))
       StdSerializeXml].
Proof.
  intros trees rename merged.
  rewrite (merge_xunit_writes trees world0 world0 world0 merged
             (mkTree (set "name" "merged" (getroot merged)))
             (Some rename) None).
  - done.
  - by vm_compute.
  - by vm_compute.
  - intros t Ht. unfold CNAME_TAGS in Ht. each_elem Ht; by vm_compute.
Defined.

Lemma merge_xunit_propagates_witness :
  merge_xunit
    (inr <$> [suite [Element "testcase" ∅ None None []]; suite2])
    (mkSink true) None world0
  = (inl (KeyError "name"), world0).
Proof.
  apply (merge_xunit_propagates
           [suite [Element "testcase" ∅ None None []]; suite2]
           (mkSink true) None world0 world0 (KeyError "name")).
  by vm_compute.
Defined.

Lemma first_skipped_case_survives_witness :
  ∃ survivors,
    children (getroot merged12) =
      filter (λ c, ¬ (tag c = "testcase" ∧ is_test_skipped c = true))
        (children (getroot suite1))
      ++ filter (λ c, is_test_skipped c = false) (later_cases [suite2])
      ++ survivors ∧
    survivors `sublist_of`
      findall "testcase" (getroot suite1) ++ later_cases [suite2] ∧
    ∀ c, c ∈ survivors →
         ∃ X l1 l2,
           named X true c ∧
           findall "testcase" (getroot suite1) ++ later_cases [suite2]
             = l1 ++ c :: l2 ∧
           ∀ c', c' ∈ l1 → ¬ named X true c'.
Proof.
  apply (first_skipped_case_survives suite1 suite2 [] world0 world0 merged12).
  by vm_compute.
Defined.

